(** * prusaslicer-skew-fix: a shallow embedding of [skew_fix_ps.py]

    Numbers: the Python floats of the script are modelled as exact
    rationals [Q]; every arithmetic expression of the source is written out
    as it stands.  The transcendental functions of Python's [math] module
    ([hypot], [atan2], [cos], [sin]) are left abstract: they are fields of
    the record [Libm], and every definition that uses them takes a [Libm].
    Strings are Stdlib [string]s over ASCII.  A G-code document is the list
    of its lines, with the line terminators already removed (the
    [raw.rstrip("\n")] of every loop). *)

From Stdlib Require Import QArith Qabs Qround Qminmax ZArith Lia.
From Stdlib Require Import Strings.String Strings.Ascii List Bool.
From Stdlib Require Import Lqa.
Import ListNotations.

Open Scope string_scope.
Open Scope bool_scope.

(* ------------------------------------------------------------------ *)
(** ** Character classes and string helpers (Python [str] methods) *)

Module Str.
Local Open Scope nat_scope.
Local Open Scope bool_scope.

(** [str.isspace] on ASCII: [\t \n \x0b \x0c \r], [\x1c]..[\x1f] and space. *)
Definition is_space (c : ascii) : bool :=
  let n := nat_of_ascii c in
  ((9 <=? n) && (n <=? 13)) || ((28 <=? n) && (n <=? 32)).

Definition is_digit (c : ascii) : bool :=
  let n := nat_of_ascii c in (48 <=? n) && (n <=? 57).

Definition is_lower (c : ascii) : bool :=
  let n := nat_of_ascii c in (97 <=? n) && (n <=? 122).

Definition is_upper_letter (c : ascii) : bool :=
  let n := nat_of_ascii c in (65 <=? n) && (n <=? 90).

(** Regex word character [\w] (ASCII): letters, digits and [_]. *)
Definition is_word (c : ascii) : bool :=
  is_digit c || is_lower c || is_upper_letter c || Ascii.eqb c "_"%char.

Definition upper_char (c : ascii) : ascii :=
  if is_lower c then ascii_of_nat (nat_of_ascii c - 32) else c.

(** [str.upper] *)
Fixpoint upper (s : string) : string :=
  match s with
  | EmptyString => EmptyString
  | String c r => String (upper_char c) (upper r)
  end.

(** [str.lstrip()] *)
Fixpoint lstrip (s : string) : string :=
  match s with
  | EmptyString => EmptyString
  | String c r => if is_space c then lstrip r else s
  end.

(** [str.rstrip()] *)
Definition rstrip (s : string) : string :=
  string_of_list_ascii
    (rev (list_ascii_of_string (lstrip (string_of_list_ascii
       (rev (list_ascii_of_string s)))))).

(** [str.strip()] *)
Definition strip (s : string) : string := lstrip (rstrip s).

(** [str.rstrip(ch)] for a one-character argument. *)
Definition rstrip_char (ch : ascii) (s : string) : string :=
  let fix drop (l : list ascii) :=
    match l with
    | [] => []
    | c :: r => if Ascii.eqb c ch then drop r else l
    end in
  string_of_list_ascii (rev (drop (rev (list_ascii_of_string s)))).

(** [ch in s] for a one-character needle. *)
Fixpoint contains (ch : ascii) (s : string) : bool :=
  match s with
  | EmptyString => false
  | String c r => Ascii.eqb c ch || contains ch r
  end.

(** [s.split()[0]] on a non-empty stripped string: the first token. *)
Fixpoint first_token (s : string) : string :=
  match s with
  | EmptyString => EmptyString
  | String c r => if is_space c then EmptyString else String c (first_token r)
  end.

Definition is_empty (s : string) : bool :=
  match s with EmptyString => true | _ => false end.

End Str.

(* ------------------------------------------------------------------ *)
(** ** Line parser: [split_comment], [MOVE_RE], [ARC_RE], [AXIS_RE] *)

(** [line.split(";", 1)] when [";" in line]. *)
Fixpoint split_semi (s : string) : option (string * string) :=
  match s with
  | EmptyString => None
  | String c r =>
      if Ascii.eqb c ";"%char then Some (EmptyString, r)
      else match split_semi r with
           | Some (a, b) => Some (String c a, b)
           | None => None
           end
  end.

(** [split_comment] *)
Definition split_comment (line : string) : string * string :=
  match split_semi line with
  | Some (code, comment) => (Str.rstrip code, String ";" comment)
  | None => (Str.rstrip line, "")
  end.

(** [re.compile(r"^(Gd1|Gd2)\b", re.IGNORECASE).match(s)] *)
Definition g_cmd_match (d1 d2 : ascii) (s : string) : bool :=
  match s with
  | String g (String d rest) =>
      Ascii.eqb (Str.upper_char g) "G"%char
      && (Ascii.eqb d d1 || Ascii.eqb d d2)
      && match rest with
         | EmptyString => true
         | String c _ => negb (Str.is_word c)
         end
  | _ => false
  end.

(** [MOVE_RE.match(s)] *)
Definition move_re (s : string) : bool := g_cmd_match "0" "1" s.
(** [ARC_RE.match(s)] *)
Definition arc_re (s : string) : bool := g_cmd_match "2" "3" s.

(** Maximal run of decimal digits ([\d+] / [\d*], greedy). *)
Fixpoint digits (s : string) : list ascii * string :=
  match s with
  | String c r =>
      if Str.is_digit c then let (ds, rest) := digits r in (c :: ds, rest)
      else ([], s)
  | EmptyString => ([], EmptyString)
  end.

Definition digit_val (c : ascii) : Z := Z.of_nat (nat_of_ascii c - 48)%nat.

Definition digits_val (ds : list ascii) : Z :=
  fold_left (fun acc c => 10 * acc + digit_val c)%Z ds 0%Z.

(** [float(tok)] of a token [-?ints.fracs]. *)
Definition decimal_value (neg : bool) (ints fracs : list ascii) : Q :=
  let m := digits_val (app ints fracs) in
  let q := m # Z.to_pos (10 ^ Z.of_nat (length fracs))%Z in
  if neg then Qopp q else q.

(** [s] without its first character when that character is [ch]. *)
Definition take_char (ch : ascii) (s : string) : option string :=
  match s with
  | String c r => if Ascii.eqb c ch then Some r else None
  | EmptyString => None
  end.

(** The number group of [AXIS_RE]: [-?\d+(?:\.\d* )?|-?\.\d+] (one or more
    digits with an optional fraction, or a bare fraction); returns the
    value of the matched token and the rest of the string. *)
Definition match_number (s : string) : option (Q * string) :=
  let '(neg, s1) := match take_char "-" s with
                    | Some r => (true, r)
                    | None => (false, s)
                    end in
  match digits s1 with
  | (c :: ds, r) =>
      match take_char "." r with
      | Some r' => let (fs, r'') := digits r' in
                   Some (decimal_value neg (c :: ds) fs, r'')
      | None => Some (decimal_value neg (c :: ds) [], r)
      end
  | ([], _) =>
      match take_char "." s1 with
      | Some r =>
          match digits r with
          | (f :: fs, r') => Some (decimal_value neg [] (f :: fs), r')
          | ([], _) => None
          end
      | None => None
      end
  end.

Definition is_axis_letter (c : ascii) : bool :=
  Str.contains (Str.upper_char c) "XYZEFRIJK".

(** The axis-word map [Dict[str, float]]: an association list whose most
    recent binding comes first, so a later match on the same line shadows
    an earlier one, as in the dict comprehension. *)
Definition words := list (ascii * Q).

Fixpoint wget (k : ascii) (w : words) : option Q :=
  match w with
  | [] => None
  | (k', v) :: r => if Ascii.eqb k k' then Some v else wget k r
  end.

Definition wget_default (k : ascii) (d : Q) (w : words) : Q :=
  match wget k w with Some v => v | None => d end.

Definition has (k : ascii) (w : words) : bool :=
  match wget k w with Some _ => true | None => false end.

(** [AXIS_RE.finditer(code)]: at each position try the pattern
    [([XYZEFRIJK])\s*(number)]; on success resume after the match, on
    failure advance one character.  [fuel] bounds the number of steps (the
    length of the string suffices). *)
Fixpoint scan_words (fuel : nat) (s : string) (acc : words) : words :=
  match fuel with
  | O => acc
  | S fuel' =>
      match s with
      | EmptyString => acc
      | String c r =>
          if is_axis_letter c then
            match match_number (Str.lstrip r) with
            | Some (v, rest) => scan_words fuel' rest ((Str.upper_char c, v) :: acc)
            | None => scan_words fuel' r acc
            end
          else scan_words fuel' r acc
      end
  end.

(** [parse_words] *)
Definition parse_words (code : string) : words :=
  scan_words (String.length code) code [].

(* ------------------------------------------------------------------ *)
(** ** Interpreter state ([@dataclass State]) *)

Record State := mkState {
  abs_xy : bool;          (* G90/G91 *)
  abs_e : bool;           (* M82/M83 *)
  ij_relative : bool;     (* G91.1 relative IJK; G90.1 absolute IJK *)
  x : Q; y : Q; z : Q; e : Q;
  f : option Q
}.

(** [State()] *)
Definition init_state : State := mkState true true true 0 0 0 0 None.

Definition set_abs_xy (b : bool) (st : State) : State :=
  mkState b st.(abs_e) st.(ij_relative) st.(x) st.(y) st.(z) st.(e) st.(f).
Definition set_abs_e (b : bool) (st : State) : State :=
  mkState st.(abs_xy) b st.(ij_relative) st.(x) st.(y) st.(z) st.(e) st.(f).
Definition set_ij_relative (b : bool) (st : State) : State :=
  mkState st.(abs_xy) st.(abs_e) b st.(x) st.(y) st.(z) st.(e) st.(f).
Definition set_xy (x1 y1 : Q) (st : State) : State :=
  mkState st.(abs_xy) st.(abs_e) st.(ij_relative) x1 y1 st.(z) st.(e) st.(f).
Definition set_x (x1 : Q) (st : State) : State := set_xy x1 st.(y) st.
Definition set_y (y1 : Q) (st : State) : State := set_xy st.(x) y1 st.
Definition set_z (z1 : Q) (st : State) : State :=
  mkState st.(abs_xy) st.(abs_e) st.(ij_relative) st.(x) st.(y) z1 st.(e) st.(f).
Definition set_e (e1 : Q) (st : State) : State :=
  mkState st.(abs_xy) st.(abs_e) st.(ij_relative) st.(x) st.(y) st.(z) e1 st.(f).
Definition set_f (f1 : Q) (st : State) : State :=
  mkState st.(abs_xy) st.(abs_e) st.(ij_relative) st.(x) st.(y) st.(z) st.(e) (Some f1).

(** The E update shared by every branch:
    [if "E" in words: st.e = words["E"] if st.abs_e else (st.e + words["E"])]. *)
Definition update_e (st : State) (w : words) : State :=
  match wget "E" w with
  | Some v => set_e (if st.(abs_e) then v else st.(e) + v) st
  | None => st
  end.

(** The six modal prefixes, in the order the source tests them. *)
Inductive modal := G90_1 | G91_1 | G90 | G91 | M82 | M83.

Definition modal_of (up : string) : option modal :=
  if String.prefix "G90.1" up then Some G90_1
  else if String.prefix "G91.1" up then Some G91_1
  else if String.prefix "G90" up then Some G90
  else if String.prefix "G91" up then Some G91
  else if String.prefix "M82" up then Some M82
  else if String.prefix "M83" up then Some M83
  else None.

Definition apply_modal (m : modal) (st : State) : State :=
  match m with
  | G90_1 => set_ij_relative false st
  | G91_1 => set_ij_relative true st
  | G90 => set_abs_xy true st
  | G91 => set_abs_xy false st
  | M82 => set_abs_e true st
  | M83 => set_abs_e false st
  end.

(* ------------------------------------------------------------------ *)
(** ** Numeric helpers *)

Definition qlt (a b : Q) : bool := negb (Qle_bool b a).

(** Python's two-argument [max]/[min] (the first argument on ties). *)
Definition pymax (a b : Q) : Q := if qlt a b then b else a.
Definition pymin (a b : Q) : Q := if qlt b a then b else a.

(** [math.pi] as the double it is. *)
Definition py_pi : Q := 884279719003555 # 281474976710656.

(** [math.radians] *)
Definition radians (d : Q) : Q := d * (py_pi / 180).

(* ------------------------------------------------------------------ *)
(** ** Shear transform *)

(** [apply_skew_abs] *)
Definition apply_skew_abs (x y k y_ref : Q) : Q * Q :=
  (x + (y - y_ref) * k, y).

(* ------------------------------------------------------------------ *)
(** ** Arc linearizer *)

(** The functions of Python's [math] module the linearizer calls. *)
Record Libm := mkLibm {
  hypot : Q -> Q -> Q;
  atan2 : Q -> Q -> Q;
  cos : Q -> Q;
  sin : Q -> Q;
  tan : Q -> Q
}.

(** [_arc_center] *)
Definition arc_center (st : State) (w : words) : Q * Q :=
  let I := wget_default "I" 0 w in
  let J := wget_default "J" 0 w in
  if st.(ij_relative) then (st.(x) + I, st.(y) + J) else (I, J).

(** [_arc_end_abs] *)
Definition arc_end_abs (st : State) (w : words) : Q * Q :=
  if st.(abs_xy) then (wget_default "X" st.(x) w, wget_default "Y" st.(y) w)
  else (st.(x) + wget_default "X" 0 w, st.(y) + wget_default "Y" 0 w).

(** [while da <= -math.pi: da += 2 * math.pi] *)
Fixpoint raise_turns (fuel : nat) (da : Q) : Q :=
  match fuel with
  | O => da
  | S n => if Qle_bool da (- py_pi) then raise_turns n (da + 2 * py_pi) else da
  end.

(** [while da > math.pi: da -= 2 * math.pi] *)
Fixpoint lower_turns (fuel : nat) (da : Q) : Q :=
  match fuel with
  | O => da
  | S n => if qlt py_pi da then lower_turns n (da - 2 * py_pi) else da
  end.

(** Enough iterations for either loop to exit: one more than the number
    of full turns in [|da|]. *)
Definition turn_fuel (da : Q) : nat :=
  S (Z.to_nat (Qceiling (Qabs da / (2 * py_pi)))).

(** [_sweep] *)
Definition sweep (a0 a1 : Q) (cw : bool) : Q :=
  let da := a1 - a0 in
  let da := raise_turns (turn_fuel da) da in
  let da := lower_turns (turn_fuel da) da in
  if cw then (if qlt 0 da then da - 2 * py_pi else da)
  else (if qlt da 0 then da + 2 * py_pi else da).

(** The geometry [linearize_arc_points] computes before segmenting. *)
Record ArcGeom := mkArcGeom {
  g_x1 : Q; g_y1 : Q;     (* resolved absolute end point *)
  g_cx : Q; g_cy : Q;     (* absolute centre *)
  g_r : Q;                (* radius *)
  g_a0 : Q;               (* start angle *)
  g_da : Q;               (* signed sweep *)
  g_arc_len : Q
}.

Definition arc_geom (M : Libm) (st : State) (w : words) (cw : bool) : ArcGeom :=
  let x0 := st.(x) in
  let y0 := st.(y) in
  let '(x1, y1) := arc_end_abs st w in
  let '(cx, cy) := arc_center st w in
  let r0 := M.(hypot) (x0 - cx) (y0 - cy) in
  let r1 := M.(hypot) (x1 - cx) (y1 - cy) in
  let r := if qlt 0 r0 && qlt 0 r1 then (1 # 2) * (r0 + r1) else pymax r0 r1 in
  let a0 := M.(atan2) (y0 - cy) (x0 - cx) in
  let a1 := M.(atan2) (y1 - cy) (x1 - cx) in
  let da := sweep a0 a1 cw in
  let arc_len := if qlt 0 r then Qabs da * r else M.(hypot) (x1 - x0) (y1 - y0) in
  mkArcGeom x1 y1 cx cy r a0 da arc_len.

(** [steps = max(1, steps_len, steps_ang)] *)
Definition arc_steps (arc_len da seg_mm max_deg : Q) : Z :=
  let max_rad := if qlt 0 max_deg then radians max_deg else Qabs da in
  let steps_len :=
    if qlt 0 seg_mm then Qceiling (arc_len / pymax seg_mm (1 # 1000000)) else 1%Z in
  let steps_ang :=
    if qlt 0 max_deg then Qceiling (Qabs da / pymax max_rad (1 # 1000000000))
    else 1%Z in
  Z.max 1 (Z.max steps_len steps_ang).

(** The [i]-th generated point ([1 <= i <= steps]). *)
Definition arc_point (M : Libm) (g : ArcGeom) (steps i : Z) : Q * Q :=
  let t := inject_Z i / inject_Z steps in
  let ai := g.(g_a0) + g.(g_da) * t in
  if (i =? steps)%Z then (g.(g_x1), g.(g_y1))
  else (g.(g_cx) + g.(g_r) * M.(cos) ai, g.(g_cy) + g.(g_r) * M.(sin) ai).

(** [range(1, steps + 1)] *)
Definition range1 (steps : Z) : list Z :=
  map Z.of_nat (seq 1 (Z.to_nat steps)).

(** [linearize_arc_points] *)
Definition linearize_arc_points (M : Libm) (st : State) (w : words) (cw : bool)
    (seg_mm max_deg : Q) : list (Q * Q) :=
  let g := arc_geom M st w cw in
  let steps := arc_steps g.(g_arc_len) g.(g_da) seg_mm max_deg in
  map (arc_point M g steps) (range1 steps).

(* ------------------------------------------------------------------ *)
(** ** Numeric formatting ([_fmt_fixed], [fmt_axis]) *)

(** Round half to even, as [format] does on the exact value. *)
Definition round_half_even (q : Q) : Z :=
  let fl := Qfloor q in
  let fr := q - inject_Z fl in
  if qlt fr (1 # 2) then fl
  else if qlt (1 # 2) fr then (fl + 1)%Z
  else if Z.even fl then fl else (fl + 1)%Z.

Fixpoint z_digits (fuel : nat) (n : Z) (acc : string) : string :=
  match fuel with
  | O => acc
  | S k =>
      let acc' := String (ascii_of_nat (48 + Z.to_nat (n mod 10))) acc in
      if (n <? 10)%Z then acc' else z_digits k (n / 10)%Z acc'
  end.

(** Decimal digits of a non-negative integer. *)
Definition z_to_dec (n : Z) : string :=
  z_digits (S (Z.to_nat (Z.log2 n))) n "".

Fixpoint zeros (n : nat) : string :=
  match n with O => "" | S k => String "0" (zeros k) end.

(** [f"{v:.{places}f}"] *)
Definition py_fixed (v : Q) (places : nat) : string :=
  let n := round_half_even (v * inject_Z (10 ^ Z.of_nat places)) in
  let ds := z_to_dec (Z.abs n) in
  let ds := zeros (S places - String.length ds) ++ ds in
  let L := String.length ds in
  let body := if Nat.eqb places 0 then ds
              else substring 0 (L - places) ds ++ "." ++ substring (L - places) places ds in
  (if qlt v 0 then "-" else "") ++ body.

(** [_fmt_fixed] *)
Definition fmt_fixed (v : Q) (places : nat) : string :=
  let s := Str.rstrip_char "." (Str.rstrip_char "0" (py_fixed v places)) in
  if Str.is_empty s then "0" else s.

(** [fmt_axis] *)
Definition fmt_axis (axis : ascii) (v : Q) (xy_places other_places : nat) : string :=
  let a := Str.upper_char axis in
  let places := if Ascii.eqb a "X" || Ascii.eqb a "Y" then xy_places else other_places in
  fmt_fixed v places.

(* ------------------------------------------------------------------ *)
(** ** Bounds accumulation, bed test, extrusion test *)

Record Bed := mkBed { bed_x_min : Q; bed_x_max : Q; bed_y_min : Q; bed_y_max : Q }.

Record Box := mkBox { minx : Q; maxx : Q; miny : Q; maxy : Q }.

Definition zero_box : Box := mkBox 0 0 0 0.

(** The accumulator of [minx, maxx, miny, maxy]: [None] is the initial
    [(inf, -inf, inf, -inf)], [Some] a box widened by at least one point. *)
Definition upd (acc : option Box) (px py : Q) : option Box :=
  match acc with
  | None => Some (mkBox px px py py)
  | Some b => Some (mkBox (pymin b.(minx) px) (pymax b.(maxx) px)
                          (pymin b.(miny) py) (pymax b.(maxy) py))
  end.

(** [_in_bed] *)
Definition in_bed (bd : Bed) (px py : Q) : bool :=
  Qle_bool bd.(bed_x_min) px && Qle_bool px bd.(bed_x_max)
  && Qle_bool bd.(bed_y_min) py && Qle_bool py bd.(bed_y_max).

(** [_is_extruding_move] *)
Definition is_extruding_move (st : State) (w : words) : bool :=
  match wget "E" w with
  | None => false
  | Some e_word => if st.(abs_e) then qlt st.(e) e_word else qlt 0 e_word
  end.

(** [cw = (s.split()[0].upper() == "G2")] *)
Definition arc_cw (s : string) : bool :=
  String.eqb (Str.upper (Str.first_token s)) "G2".

(** Parameters shared by the two bounds passes. *)
Record ScanCfg := mkScanCfg {
  linearize : bool;
  arc_seg_mm : Q;
  arc_max_deg : Q;
  bed : Bed
}.

(* ------------------------------------------------------------------ *)
(** ** Pass A: [compute_inbed_extruding_bounds_original] *)

Section PassA.
Context (M : Libm) (c : ScanCfg).

Definition passA_step (sa : State * option Box) (line : string) : State * option Box :=
  let '(st, acc) := sa in
  let '(code, _) := split_comment line in
  let s := Str.strip code in
  if Str.is_empty s then (st, acc) else
  let up := Str.upper s in
  match modal_of up with
  | Some m => (apply_modal m st, acc)
  | None =>
      if arc_re s then
        let w := parse_words code in
        let acc :=
          if is_extruding_move st w then
            if c.(linearize) then
              let pts := linearize_arc_points M st w (arc_cw s) c.(arc_seg_mm) c.(arc_max_deg) in
              fold_left (fun acc p =>
                           if in_bed c.(bed) (fst p) (snd p) then upd acc (fst p) (snd p)
                           else acc) pts acc
            else
              let '(x1, y1) := arc_end_abs st w in
              if in_bed c.(bed) x1 y1 then upd acc x1 y1 else acc
          else acc in
        let '(x1, y1) := arc_end_abs st w in
        (update_e (set_xy x1 y1 st) w, acc)
      else if move_re s then
        let w := parse_words code in
        let extruding := is_extruding_move st w in
        let x1 := wget_default "X" st.(x) w in
        let y1 := wget_default "Y" st.(y) w in
        let acc := if extruding && in_bed c.(bed) x1 y1 then upd acc x1 y1 else acc in
        (update_e (set_xy x1 y1 st) w, acc)
      else if Str.contains "E" up then
        (update_e st (parse_words code), acc)
      else (st, acc)
  end.

Definition passA_scan (doc : list string) : State * option Box :=
  fold_left passA_step doc (init_state, None).

(** [compute_inbed_extruding_bounds_original] *)
Definition compute_inbed_extruding_bounds_original (doc : list string) : Box :=
  match snd (passA_scan doc) with
  | None => zero_box
  | Some b => b
  end.

End PassA.

(* ------------------------------------------------------------------ *)
(** ** Errors ([raise SystemExit]) and a small error monad *)

Inductive error :=
  | ErrRecenterAbsXY           (* --recenter-to-bed requires absolute XY (G90) *)
  | ErrNoFit (b : Box)         (* geometry cannot fit within bed after skew *)
  | ErrSkewRelXY.              (* relative XY (G91) not supported for skew output *)

Inductive res (A : Type) := Ok (a : A) | Err (err : error).
Arguments Ok {A} a.
Arguments Err {A} err.

Definition bind {A B : Type} (m : res A) (k : A -> res B) : res B :=
  match m with Ok a => k a | Err er => Err er end.

Notation "'let*' p := m 'in' k" := (bind m (fun p => k))
  (at level 200, p name, m at level 100, k at level 200).

Definition is_err {A : Type} (r : res A) : bool :=
  match r with Ok _ => false | Err _ => true end.

(* ------------------------------------------------------------------ *)
(** ** Pass B: [compute_translation_for_bounds] *)

Record RecenterCfg := mkRecenterCfg {
  margin : Q;
  recenter_mode : string;   (* "center" or "clamp" *)
  eps : Q
}.

(** [_choose_translation] *)
Definition choose_translation (lo hi : Q) (mode : string) : Q :=
  if String.eqb mode "center" then (1 # 2) * (lo + hi)
  else if Qle_bool lo 0 && Qle_bool 0 hi then 0
  else if qlt (Qabs lo) (Qabs hi) then lo else hi.

Section PassB.
Context (M : Libm) (c : ScanCfg) (k y_ref : Q).

Definition passB_step (sa : State * option Box) (line : string) : res (State * option Box) :=
  let '(st, acc) := sa in
  let '(code, _) := split_comment line in
  let s := Str.strip code in
  if Str.is_empty s then Ok (st, acc) else
  let up := Str.upper s in
  match modal_of up with
  | Some m => Ok (apply_modal m st, acc)
  | None =>
      if negb st.(abs_xy) then Err ErrRecenterAbsXY else
      if arc_re s then
        let w := parse_words code in
        let acc :=
          if is_extruding_move st w then
            if c.(linearize) then
              let pts := linearize_arc_points M st w (arc_cw s) c.(arc_seg_mm) c.(arc_max_deg) in
              fold_left (fun acc p =>
                           if in_bed c.(bed) (fst p) (snd p) then
                             let '(xs, ys) := apply_skew_abs (fst p) (snd p) k y_ref in
                             upd acc xs ys
                           else acc) pts acc
            else
              let '(x1, y1) := arc_end_abs st w in
              if in_bed c.(bed) x1 y1 then
                let '(xs, ys) := apply_skew_abs x1 y1 k y_ref in upd acc xs ys
              else acc
          else acc in
        let '(x1, y1) := arc_end_abs st w in
        Ok (update_e (set_xy x1 y1 st) w, acc)
      else if move_re s then
        let w := parse_words code in
        let extruding := is_extruding_move st w in
        let x1 := wget_default "X" st.(x) w in
        let y1 := wget_default "Y" st.(y) w in
        let acc := if extruding && in_bed c.(bed) x1 y1 then
                     let '(xs, ys) := apply_skew_abs x1 y1 k y_ref in upd acc xs ys
                   else acc in
        Ok (update_e (set_xy x1 y1 st) w, acc)
      else if Str.contains "E" up then
        Ok (update_e st (parse_words code), acc)
      else Ok (st, acc)
  end.

Fixpoint passB_scan (sa : State * option Box) (doc : list string)
    : res (State * option Box) :=
  match doc with
  | [] => Ok sa
  | line :: rest => let* sa' := passB_step sa line in passB_scan sa' rest
  end.

(** The tail of [compute_translation_for_bounds], once at least one point
    has been accumulated. *)
Definition translation_for_box (rc : RecenterCfg) (b : Box) : res (Q * Q * Box) :=
  let bd := c.(bed) in
  let dx_lo := (bd.(bed_x_min) + rc.(margin)) - b.(minx) in
  let dx_hi := (bd.(bed_x_max) - rc.(margin)) - b.(maxx) in
  let dy_lo := (bd.(bed_y_min) + rc.(margin)) - b.(miny) in
  let dy_hi := (bd.(bed_y_max) - rc.(margin)) - b.(maxy) in
  if qlt rc.(eps) (dx_lo - dx_hi) || qlt rc.(eps) (dy_lo - dy_hi) then Err (ErrNoFit b)
  else Ok (choose_translation dx_lo dx_hi rc.(recenter_mode),
           choose_translation dy_lo dy_hi rc.(recenter_mode), b).

(** [compute_translation_for_bounds] *)
Definition compute_translation_for_bounds (rc : RecenterCfg) (doc : list string)
    : res (Q * Q * Box) :=
  let* sa := passB_scan (init_state, None) doc in
  match snd sa with
  | None => Ok (0, 0, zero_box)
  | Some b => translation_for_box rc b
  end.

End PassB.

(* ------------------------------------------------------------------ *)
(** ** Rewrite pass ([rewrite]) *)

Record RewriteCfg := mkRewriteCfg {
  rw_k : Q;               (* k = tan(radians(skew_deg)) *)
  rw_y_ref : Q;
  rw_dx : Q; rw_dy : Q;   (* recenter translation, 0 when disabled *)
  rw_linearize : bool;
  rw_arc_seg_mm : Q;
  rw_arc_max_deg : Q;
  rw_recenter : bool;
  xy_decimals : nat;
  other_decimals : nat
}.

(** An output line.  [OText] is written as it stands.  [OMove code subs
    comment] is the rewritten linear move
    [new.rstrip() + ("" if not comment else " " + comment.lstrip())] where
    [new] is [code] after [replace_or_append] of each [(axis, value)] of
    [subs] in order; the regex substitution on the text itself is not
    modelled.  [OHeader] is the metadata block written first. *)
Inductive out_line :=
  | OText (s : string)
  | OMove (code : string) (subs : list (ascii * Q)) (comment : string)
  | OHeader (k y_ref dx dy : Q) (skew_bounds : Box).

Section Rewrite.
Context (M : Libm) (cfg : RewriteCfg).

Definition fmt (axis : ascii) (v : Q) : string :=
  fmt_axis axis v cfg.(xy_decimals) cfg.(other_decimals).

(** One [G1] line of a linearized arc: point [i] (from 1) of [n]. *)
Definition arc_segment_line (st : State) (w : words) (comment : string)
    (e0 e_end dE : Q) (n : nat) (i : nat) (p : Q * Q) : string :=
  let '(xs, ys) := apply_skew_abs (fst p) (snd p) cfg.(rw_k) cfg.(rw_y_ref) in
  let xs := xs + cfg.(rw_dx) in
  let ys := ys + cfg.(rw_dy) in
  let l := "G1" ++ " X" ++ fmt "X" xs ++ " Y" ++ fmt "Y" ys in
  let l := if has "E" w then
             if st.(abs_e) then
               let t := inject_Z (Z.of_nat i) / inject_Z (Z.of_nat n) in
               let ei := e0 + dE * t in
               let ei := if Nat.eqb i n then e_end else ei in
               l ++ " E" ++ fmt "E" ei
             else l ++ " E" ++ fmt "E" (dE / inject_Z (Z.of_nat n))
           else l in
  let l := match wget "F" w with
           | Some f_word => if Nat.eqb i 1 then l ++ " F" ++ fmt "F" f_word else l
           | None => l
           end in
  if negb (Str.is_empty comment) && Nat.eqb i 1 then l ++ " " ++ Str.lstrip comment
  else l.

Definition rewrite_step (st : State) (line : string) : res (State * list out_line) :=
  let '(code, comment) := split_comment line in
  let s := Str.strip code in
  let up := Str.upper s in
  match modal_of up with
  | Some m => Ok (apply_modal m st, [OText line])
  | None =>
      if cfg.(rw_recenter) && negb st.(abs_xy) then Err ErrRecenterAbsXY else
      if arc_re s then
        let w := parse_words code in
        let cw := arc_cw s in
        if cfg.(rw_linearize) then
          let pts := linearize_arc_points M st w cw cfg.(rw_arc_seg_mm) cfg.(rw_arc_max_deg) in
          let e0 := st.(e) in
          let '(e_end, dE) :=
            match wget "E" w with
            | Some ew => if st.(abs_e) then (ew, ew - e0) else (e0 + ew, ew)
            | None => (e0, 0)
            end in
          let n := length pts in
          let outs := map (fun ip => OText (arc_segment_line st w comment e0 e_end dE n
                                              (fst ip) (snd ip)))
                          (combine (seq 1 n) pts) in
          let '(xl, yl) := last pts (st.(x), st.(y)) in
          let st := set_xy xl yl st in
          let st := if has "E" w then set_e e_end st else st in
          let st := match wget "F" w with Some fw => set_f fw st | None => st end in
          Ok (st, outs)
        else
          let '(x1, y1) := arc_end_abs st w in
          let st := update_e (set_xy x1 y1 st) w in
          let st := match wget "F" w with Some fw => set_f fw st | None => st end in
          Ok (st, [OText line])
      else if move_re s then
        let w := parse_words code in
        let has_x := has "X" w in
        let has_y := has "Y" w in
        let* out :=
          if has_x || has_y then
            if negb st.(abs_xy) then Err ErrSkewRelXY else
            let x_t := wget_default "X" st.(x) w in
            let y_t := wget_default "Y" st.(y) w in
            let '(xs, ys) := apply_skew_abs x_t y_t cfg.(rw_k) cfg.(rw_y_ref) in
            let xs := xs + cfg.(rw_dx) in
            let ys := ys + cfg.(rw_dy) in
            Ok (OMove code (app (if has_x then [("X"%char, xs)] else [])
                                 (if has_y then [("Y"%char, ys)] else [])) comment)
          else Ok (OText line) in
        let st := match wget "X" w with Some v => set_x v st | None => st end in
        let st := match wget "Y" w with Some v => set_y v st | None => st end in
        let st := update_e st w in
        let st := match wget "F" w with Some fw => set_f fw st | None => st end in
        let st := match wget "Z" w with
                  | Some v => set_z (if st.(abs_xy) then v else st.(z) + v) st
                  | None => st
                  end in
        Ok (st, [out])
      else Ok (st, [OText line])
  end.

Fixpoint rewrite_lines (st : State) (doc : list string) : res (State * list out_line) :=
  match doc with
  | [] => Ok (st, [])
  | line :: rest =>
      let* r1 := rewrite_step st line in
      let* r2 := rewrite_lines (fst r1) rest in
      Ok (fst r2, app (snd r1) (snd r2))
  end.

End Rewrite.

(** The command-line parameters [rewrite] receives (analyze-only off). *)
Record Params := mkParams {
  skew_deg : Q;
  p_linearize : bool; p_arc_seg_mm : Q; p_arc_max_deg : Q;
  p_recenter : bool; p_bed : Bed; p_margin : Q;
  p_recenter_mode : string; p_eps : Q;
  shear_y_ref_mode : string; shear_y_ref : Q;
  p_xy_decimals : nat; p_other_decimals : nat
}.

(** [rewrite] with [analyze_only=False]: choose [y_ref], solve the
    translation when recentering, then run the rewrite pass; the result is
    the list of lines written to the temporary file. *)
Definition rewrite (M : Libm) (p : Params) (doc : list string) : res (list out_line) :=
  let k := M.(tan) (radians p.(skew_deg)) in
  let sc := mkScanCfg p.(p_linearize) p.(p_arc_seg_mm) p.(p_arc_max_deg) p.(p_bed) in
  let y_ref :=
    if String.eqb p.(shear_y_ref_mode) "auto" then
      let ob := compute_inbed_extruding_bounds_original M sc doc in
      if negb (Qeq_bool ob.(miny) 0) || negb (Qeq_bool ob.(maxy) 0)
      then (1 # 2) * (ob.(miny) + ob.(maxy)) else 0
    else p.(shear_y_ref) in
  let* t :=
    if p.(p_recenter) then
      compute_translation_for_bounds M sc k y_ref
        (mkRecenterCfg p.(p_margin) p.(p_recenter_mode) p.(p_eps)) doc
    else Ok (0, 0, zero_box) in
  let '(dxy, skew_bounds) := t in
  let '(dx, dy) := dxy in
  let cfg := mkRewriteCfg k y_ref dx dy p.(p_linearize) p.(p_arc_seg_mm)
               p.(p_arc_max_deg) p.(p_recenter) p.(p_xy_decimals) p.(p_other_decimals) in
  let* r := rewrite_lines M cfg init_state doc in
  Ok (OHeader k y_ref dx dy skew_bounds :: snd r).

(* ------------------------------------------------------------------ *)
(** ** [replace_or_append] and the rendering of a rewritten move *)

(** Backtracking choices of a greedy digit run [ds] followed by [rest]:
    taking [j] digits for [j] from [length ds] down to [lo], each as the
    last matched character ([last0] when [j = 0]) and the text after it. *)
Definition take_cands (lo : nat) (last0 : ascii) (ds : list ascii) (rest : string)
    : list (ascii * string) :=
  map (fun j => (match j with O => last0 | S j' => nth j' ds last0 end,
                 string_of_list_ascii (skipn j ds) ++ rest))
      (rev (seq lo (S (length ds) - lo))).

(** The ways, in the regex engine's order of preference, in which the group
    [(-?\d+(?:\.\d* )?|-?\.\d+)] can match at the start of [s]. *)
Definition number_cands (s : string) : list (ascii * string) :=
  let s1 := match take_char "-" s with Some r => r | None => s end in
  let alt1 :=
    match digits s1 with
    | ([], _) => []
    | (ds, r) =>
        let frac := match take_char "." r with
                    | Some r' => let '(fs, r'') := digits r' in take_cands 0 "." fs r''
                    | None => []
                    end in
        app frac (take_cands 1 "0" ds r)
    end in
  let alt2 :=
    match take_char "." s1 with
    | Some r => let '(fs, r') := digits r in take_cands 1 "." fs r'
    | None => []
    end in
  app alt1 alt2.

(** [\b] between the last matched character and what follows. *)
Definition boundary_after (last : ascii) (rest : string) : bool :=
  xorb (Str.is_word last)
       (match rest with String c _ => Str.is_word c | EmptyString => false end).

(** [(?i)\b{axis}\s*(number)\b] matched at the start of [s], [prev] being the
    character before it; returns the text after the match.  [\s*] is taken
    greedily only: a shorter run leaves a space where the number must start. *)
Definition axis_match_at (axis : ascii) (prev : option ascii) (s : string) : option string :=
  match s with
  | String c r =>
      if Ascii.eqb (Str.upper_char c) axis
         && match prev with Some p => negb (Str.is_word p) | None => true end then
        match find (fun lr => boundary_after (fst lr) (snd lr)) (number_cands (Str.lstrip r)) with
        | Some (_, rest) => Some rest
        | None => None
        end
      else None
  | EmptyString => None
  end.

(** [pat.search(code)]: the leftmost match, as the text before it and the
    text after it. *)
Fixpoint axis_search (axis : ascii) (prev : option ascii) (s : string)
    : option (string * string) :=
  match axis_match_at axis prev s with
  | Some rest => Some (EmptyString, rest)
  | None =>
      match s with
      | EmptyString => None
      | String c r =>
          match axis_search axis (Some c) r with
          | Some (b, rest) => Some (String c b, rest)
          | None => None
          end
      end
  end.

(** [replace_or_append] *)
Definition replace_or_append (code : string) (axis : ascii) (val : Q)
    (xy_places other_places : nat) : string :=
  let axis := Str.upper_char axis in
  let tok := String axis (fmt_axis axis val xy_places other_places) in
  match axis_search axis None code with
  | Some (before, rest) => before ++ tok ++ rest
  | None => code ++ " " ++ tok
  end.

(** The text of an [OMove] line:
    [new.rstrip() + ("" if not comment else " " + comment.lstrip())]. *)
Definition render_move (cfg : RewriteCfg) (code : string) (subs : list (ascii * Q))
    (comment : string) : string :=
  let new := fold_left (fun c av => replace_or_append c (fst av) (snd av)
                                      cfg.(xy_decimals) cfg.(other_decimals)) subs code in
  Str.rstrip new ++ (if Str.is_empty comment then "" else " " ++ Str.lstrip comment).

(* ------------------------------------------------------------------ *)
(** ** [_assert_text_gcode] *)

Inductive text_error := ErrBinaryMagic | ErrBinaryNul.

Fixpoint bytes_prefix (p s : list Byte.byte) : bool :=
  match p, s with
  | [], _ => true
  | b :: p', c :: s' => Byte.eqb b c && bytes_prefix p' s'
  | _ :: _, [] => false
  end.

(** [p in s] on bytes. *)
Fixpoint bytes_contains (p s : list Byte.byte) : bool :=
  bytes_prefix p s || match s with [] => false | _ :: s' => bytes_contains p s' end.

Definition gcde : list Byte.byte := [Byte.x47; Byte.x43; Byte.x44; Byte.x45].

(** [_assert_text_gcode] on the bytes of the file; [None] when it returns. *)
Definition assert_text_gcode (data : list Byte.byte) : option text_error :=
  let head := firstn 512 data in
  if bytes_prefix gcde head || bytes_contains gcde (firstn 64 head) then Some ErrBinaryMagic
  else if existsb (Byte.eqb Byte.x00) head then Some ErrBinaryNul
  else None.

(* ------------------------------------------------------------------ *)
(** ** [analyze_gcode] *)

Record AnalyzeCfg := mkAnalyzeCfg {
  an_linearize : bool; an_arc_seg_mm : Q; an_arc_max_deg : Q;
  an_k : Q; an_y_ref : Q; an_dx : Q; an_dy : Q
}.

(** The loop state of [analyze_gcode]: tracker, the pre- and post-skew
    all-move boxes ([upd0], [upd1]) and [max_abs_dx]. *)
Record Analysis := mkAnalysis {
  an_st : State; pre : option Box; post : option Box; max_abs_dx : Q
}.

Section Analyze.
Context (M : Libm) (ac : AnalyzeCfg).

(** [upd0(x, y)], the skew, [upd1(xs, ys)] and the [max_abs_dx] update. *)
Definition analyze_point (a : Analysis) (p : Q * Q) : Analysis :=
  let '(x1, y1) := p in
  let '(xs, ys) := apply_skew_abs x1 y1 ac.(an_k) ac.(an_y_ref) in
  let xs := xs + ac.(an_dx) in
  let ys := ys + ac.(an_dy) in
  mkAnalysis a.(an_st) (upd a.(pre) x1 y1) (upd a.(post) xs ys)
             (pymax a.(max_abs_dx) (Qabs (xs - x1))).

Definition set_an_st (st : State) (a : Analysis) : Analysis :=
  mkAnalysis st a.(pre) a.(post) a.(max_abs_dx).

Definition analyze_step (a : Analysis) (line : string) : Analysis :=
  let st := a.(an_st) in
  let '(code, _) := split_comment line in
  let s := Str.strip code in
  if Str.is_empty s then a else
  let up := Str.upper s in
  match modal_of up with
  | Some m => set_an_st (apply_modal m st) a
  | None =>
      if negb st.(abs_xy) then a else
      if move_re s then
        let w := parse_words code in
        let x1 := wget_default "X" st.(x) w in
        let y1 := wget_default "Y" st.(y) w in
        let a := if has "X" w || has "Y" w then analyze_point a (x1, y1) else a in
        set_an_st (update_e (set_xy x1 y1 st) w) a
      else if arc_re s then
        let w := parse_words code in
        if ac.(an_linearize) then
          let pts := linearize_arc_points M st w (arc_cw s) ac.(an_arc_seg_mm) ac.(an_arc_max_deg) in
          let a := fold_left analyze_point pts a in
          let '(xl, yl) := last pts (st.(x), st.(y)) in
          set_an_st (update_e (set_xy xl yl st) w) a
        else
          let '(x1, y1) := arc_end_abs st w in
          let a := analyze_point a (x1, y1) in
          set_an_st (update_e (set_xy x1 y1 st) w) a
      else a
  end.

Definition analyze_scan (doc : list string) : Analysis :=
  fold_left analyze_step doc (mkAnalysis init_state None None 0).

End Analyze.

(** [analyze_gcode]: the translation (when recentering) and the loop's
    results, before they are printed. *)
Definition analyze_gcode (M : Libm) (sc : ScanCfg) (k y_ref : Q) (recenter : bool)
    (rc : RecenterCfg) (doc : list string) : res (Q * Q * Box * Analysis) :=
  let* t := if recenter then compute_translation_for_bounds M sc k y_ref rc doc
            else Ok (0, 0, zero_box) in
  let '(dxy, skew_bounds) := t in
  let '(dx, dy) := dxy in
  let ac := mkAnalyzeCfg sc.(linearize) sc.(arc_seg_mm) sc.(arc_max_deg) k y_ref dx dy in
  Ok (dx, dy, skew_bounds, analyze_scan M ac doc).

(* ------------------------------------------------------------------ *)
(** ** A rational stand-in for [math]

    Exact where the axis-aligned arcs of the examples evaluate it
    ([hypot] with a zero argument or a perfect square, [atan2] on the axes);
    elsewhere a rational approximation. *)

Definition q_sqrt (q : Q) : Q :=
  Z.sqrt (Qfloor (q * inject_Z (10 ^ 18))) # Z.to_pos (10 ^ 9).

Definition atan_approx (t : Q) : Q :=
  if Qle_bool (Qabs t) 1 then t / (1 + (7 # 25) * t * t)
  else let u := 1 / t in
       (if qlt 0 t then py_pi / 2 else - (py_pi / 2)) - u / (1 + (7 # 25) * u * u).

Definition atan2_q (yv xv : Q) : Q :=
  if Qeq_bool yv 0 then (if qlt xv 0 then py_pi else 0)
  else if Qeq_bool xv 0 then (if qlt 0 yv then py_pi / 2 else - (py_pi / 2))
  else if qlt 0 xv then atan_approx (yv / xv)
  else if qlt 0 yv then atan_approx (yv / xv) + py_pi
  else atan_approx (yv / xv) - py_pi.

(** Reduction into [[-pi, pi]] by a whole number of turns, then Taylor
    polynomials. *)
Definition reduce_angle (t : Q) : Q :=
  Qred (t - inject_Z (round_half_even (t / (2 * py_pi))) * (2 * py_pi)).

Definition cos_q (t : Q) : Q :=
  let u := reduce_angle t in
  Qred (1 - u ^ 2 / 2 + u ^ 4 / 24 - u ^ 6 / 720 + u ^ 8 / 40320
        - u ^ 10 / 3628800 + u ^ 12 / 479001600).
Definition sin_q (t : Q) : Q :=
  let u := reduce_angle t in
  Qred (u - u ^ 3 / 6 + u ^ 5 / 120 - u ^ 7 / 5040 + u ^ 9 / 362880
        - u ^ 11 / 39916800 + u ^ 13 / 6227020800).

Definition libm_q : Libm :=
  mkLibm (fun a b => q_sqrt (a * a + b * b)) atan2_q cos_q sin_q
         (fun t => sin_q t / cos_q t).

(* ================================================================== *)
(** * Properties *)

(** ** Helper lemmas *)

Lemma qlt_true (a b : Q) : qlt a b = true <-> a < b.
Proof.
  unfold qlt. rewrite negb_true_iff. split; intro H.
  - apply Qnot_le_lt. intro H'. apply Qle_bool_iff in H'. congruence.
  - destruct (Qle_bool b a) eqn:E; [|reflexivity].
    apply Qle_bool_iff in E. exfalso. apply (Qlt_not_le _ _ H E).
Qed.

Lemma qlt_false (a b : Q) : qlt a b = false <-> b <= a.
Proof.
  unfold qlt. rewrite negb_false_iff. apply Qle_bool_iff.
Qed.

Lemma Qle_bool_false (a b : Q) : Qle_bool a b = false -> b < a.
Proof.
  intro H. apply Qnot_le_lt. intro H'. apply Qle_bool_iff in H'. congruence.
Qed.

(** Turn the boolean comparisons of the hypotheses into propositions. *)
Ltac qbool_hyps :=
  repeat match goal with
  | H : qlt _ _ = true |- _ => apply qlt_true in H
  | H : qlt _ _ = false |- _ => apply qlt_false in H
  | H : Qle_bool _ _ = true |- _ => apply Qle_bool_iff in H
  | H : Qle_bool _ _ = false |- _ => apply Qle_bool_false in H
  end.

Lemma arc_steps_ge_1 (L da seg deg : Q) : (1 <= arc_steps L da seg deg)%Z.
Proof. unfold arc_steps. apply Z.le_max_l. Qed.

Lemma range1_length (n : Z) : length (range1 n) = Z.to_nat n.
Proof. unfold range1. rewrite length_map, length_seq. reflexivity. Qed.

Lemma linearize_length (M : Libm) (st : State) (w : words) (cw : bool) (seg deg : Q) :
  length (linearize_arc_points M st w cw seg deg)
  = Z.to_nat (arc_steps (g_arc_len (arc_geom M st w cw)) (g_da (arc_geom M st w cw)) seg deg).
Proof. unfold linearize_arc_points. rewrite length_map, range1_length. reflexivity. Qed.

Lemma arc_geom_end (M : Libm) (st : State) (w : words) (cw : bool) :
  (g_x1 (arc_geom M st w cw), g_y1 (arc_geom M st w cw)) = arc_end_abs st w.
Proof.
  unfold arc_geom. destruct (arc_end_abs st w) as [x1 y1].
  destruct (arc_center st w) as [cx cy]. reflexivity.
Qed.

Lemma range1_nth (n : Z) (j : nat) :
  (Z.of_nat j < n)%Z -> nth j (range1 n) 0%Z = Z.of_nat (S j).
Proof.
  intro H. unfold range1.
  rewrite nth_indep with (d' := Z.of_nat 0) by (rewrite length_map, length_seq; lia).
  rewrite map_nth, seq_nth by lia. f_equal.
Qed.


Lemma div_antitone (L a b : Q) : 0 <= L -> 0 < a -> a <= b -> L / b <= L / a.
Proof.
  intros HL Ha Hab.
  apply Qle_shift_div_l; [exact Ha|].
  setoid_replace (L / b * a) with ((L * a) / b)
    by (field; intro H0; rewrite H0 in Hab; lra).
  apply Qle_shift_div_r; [lra|]. nra.
Qed.

Lemma ceiling_div_nonpos (L d : Q) : L < 0 -> 0 < d -> (Qceiling (L / d) <= 0)%Z.
Proof.
  intros HL Hd.
  assert (H : L / d <= 0) by (apply Qle_shift_div_r; lra).
  apply Qceiling_resp_le in H. exact H.
Qed.

(** [ceil(L / d)] does not grow when the positive divisor grows
    (below 1, where [max(1, ...)] absorbs it, anything may happen). *)
Lemma ceiling_div_antitone (L a b : Q) :
  0 < a -> a <= b -> (Qceiling (L / b) <= Z.max 1 (Qceiling (L / a)))%Z.
Proof.
  intros Ha Hab.
  destruct (Qlt_le_dec L 0) as [HL|HL].
  - pose proof (ceiling_div_nonpos L b HL ltac:(lra)). lia.
  - pose proof (Qceiling_resp_le _ _ (div_antitone L a b HL Ha Hab)). lia.
Qed.

Lemma pymax_pos_mono (s s' eps0 : Q) :
  0 < eps0 -> s' <= s -> 0 < pymax s' eps0 /\ pymax s' eps0 <= pymax s eps0.
Proof.
  intros He Hs. unfold pymax.
  destruct (qlt s' eps0) eqn:E1; destruct (qlt s eps0) eqn:E2;
    rewrite ?qlt_true, ?qlt_false in *; split; lra.
Qed.

Lemma arc_steps_mono_seg (L da s s' deg : Q) :
  0 < s' -> s' <= s -> (arc_steps L da s deg <= arc_steps L da s' deg)%Z.
Proof.
  intros Hs' Hs. unfold arc_steps.
  assert (E1 : qlt 0 s = true) by (apply qlt_true; lra).
  assert (E2 : qlt 0 s' = true) by (apply qlt_true; lra).
  rewrite E1, E2.
  destruct (pymax_pos_mono s s' (1 # 1000000) ltac:(reflexivity) Hs) as [Hp Hle].
  pose proof (ceiling_div_antitone L _ _ Hp Hle). lia.
Qed.

Lemma radians_mono (d d' : Q) : d' <= d -> radians d' <= radians d.
Proof.
  intro H. unfold radians. apply Qmult_le_compat_r; [exact H|].
  unfold py_pi. vm_compute. discriminate.
Qed.

Lemma radians_pos (d : Q) : 0 < d -> 0 < radians d.
Proof.
  intro H. unfold radians.
  assert (0 < py_pi / 180) by (vm_compute; reflexivity). nra.
Qed.

Lemma arc_steps_mono_deg (L da seg deg deg' : Q) :
  0 < deg' -> deg' <= deg -> (arc_steps L da seg deg <= arc_steps L da seg deg')%Z.
Proof.
  intros Hd' Hd. unfold arc_steps.
  assert (E1 : qlt 0 deg = true) by (apply qlt_true; lra).
  assert (E2 : qlt 0 deg' = true) by (apply qlt_true; lra).
  rewrite E1, E2.
  destruct (pymax_pos_mono (radians deg) (radians deg') (1 # 1000000000)
              ltac:(reflexivity) (radians_mono _ _ Hd)) as [Hp Hle].
  pose proof (ceiling_div_antitone (Qabs da) _ _ Hp Hle). lia.
Qed.

(** ** C1: the shear transform *)

(** C1: [apply_skew_abs x y k y_ref] is exactly [(x + (y - y_ref) * k, y)];
    its Y component is always the input Y, and at the reference line
    ([y == y_ref]) the point is returned unchanged. *)
Theorem apply_skew_abs_shear (x y k y_ref : Q) :
  apply_skew_abs x y k y_ref = (x + (y - y_ref) * k, y)
  /\ snd (apply_skew_abs x y k y_ref) = y
  /\ (y == y_ref -> fst (apply_skew_abs x y k y_ref) == x
                    /\ snd (apply_skew_abs x y k y_ref) = y).
Proof.
  split; [reflexivity|]. split; [reflexivity|].
  intro H. simpl. split; [|reflexivity].
  rewrite H. ring.
Qed.

Lemma apply_skew_abs_shear_witness :
  (5 == 5) /\ fst (apply_skew_abs 3 5 (1 # 2) 5) == 3.
Proof.
  split; [reflexivity|].
  apply (proj2 (proj2 (apply_skew_abs_shear 3 5 (1 # 2) 5))). reflexivity.
Defined.

(** ** C2: arc end point exactness *)

(** C2: [linearize_arc_points] returns one point per segment
    ([arc_steps] of them): point [i] (from 1) is the sample at parameter
    [i / steps] on the arc, so the start point (parameter 0) is not
    emitted, and the last point is exactly the resolved absolute end point
    [_arc_end_abs] (not a trigonometric sample). *)
Theorem linearize_arc_points_end (M : Libm) (st : State) (w : words) (cw : bool)
    (seg_mm max_deg : Q) :
  let g := arc_geom M st w cw in
  let steps := arc_steps g.(g_arc_len) g.(g_da) seg_mm max_deg in
  let pts := linearize_arc_points M st w cw seg_mm max_deg in
  length pts = Z.to_nat steps
  /\ (forall d, last pts d = arc_end_abs st w)
  /\ (forall (j : nat) d, (Z.of_nat (S j) < steps)%Z ->
        nth j pts d =
        (g.(g_cx) + g.(g_r) * M.(cos) (g.(g_a0) + g.(g_da) * (inject_Z (Z.of_nat (S j)) / inject_Z steps)),
         g.(g_cy) + g.(g_r) * M.(sin) (g.(g_a0) + g.(g_da) * (inject_Z (Z.of_nat (S j)) / inject_Z steps)))).
Proof.
  intros g steps pts.
  assert (Hs : (1 <= steps)%Z) by apply arc_steps_ge_1.
  split; [apply linearize_length|]. split.
  - intro d. unfold pts, linearize_arc_points. fold g. fold steps.
    unfold range1.
    destruct (Z.to_nat steps) as [|n] eqn:En; [lia|].
    rewrite map_map.
    rewrite seq_S, map_app. simpl map at 2. rewrite last_last.
    unfold arc_point.
    change (Z.pos (Pos.of_succ_nat n)) with (Z.of_nat (S n)).
    replace (Z.of_nat (S n) =? steps)%Z with true by (symmetry; apply Z.eqb_eq; lia).
    apply arc_geom_end.
  - intros j d Hj. unfold pts, linearize_arc_points. fold g. fold steps.
    rewrite nth_indep with (d' := arc_point M g steps 0%Z)
      by (rewrite length_map, range1_length; lia).
    rewrite map_nth, range1_nth by lia.
    unfold arc_point.
    replace (Z.of_nat (S j) =? steps)%Z with false by (symmetry; apply Z.eqb_neq; lia).
    reflexivity.
Qed.

Definition arc_ex_state : State := set_xy 1 0 init_state.
Definition arc_ex_words : words := parse_words "G3 X-1 Y0 I-1 J0".

Lemma linearize_arc_points_end_witness :
  let g := arc_geom libm_q arc_ex_state arc_ex_words false in
  let steps := arc_steps g.(g_arc_len) g.(g_da) (1 # 5) 0 in
  (Z.of_nat 1 < steps)%Z
  /\ nth 0 (linearize_arc_points libm_q arc_ex_state arc_ex_words false (1 # 5) 0) (0, 0)
     = (g.(g_cx) + g.(g_r) * cos_q (g.(g_a0) + g.(g_da) * (inject_Z (Z.of_nat 1) / inject_Z steps)),
        g.(g_cy) + g.(g_r) * sin_q (g.(g_a0) + g.(g_da) * (inject_Z (Z.of_nat 1) / inject_Z steps))).
Proof.
  intros g steps.
  assert (H : (Z.of_nat 1 < steps)%Z) by (vm_compute; reflexivity).
  split; [exact H|].
  exact (proj2 (proj2 (linearize_arc_points_end libm_q arc_ex_state arc_ex_words false
                         (1 # 5) 0)) 0%nat (0, 0) H).
Defined.

(** ** C10: the linearizer never returns an empty list *)

(** C10: for every state, axis-word map and direction, and any target
    chord length and angular step (zero and negative included),
    [linearize_arc_points] returns at least one point, so [pts[-1]] and the
    divisions by [len(pts)] in [rewrite] are well defined. *)
Theorem linearize_arc_points_nonempty (M : Libm) (st : State) (w : words) (cw : bool)
    (seg_mm max_deg : Q) :
  (1 <= length (linearize_arc_points M st w cw seg_mm max_deg))%nat
  /\ linearize_arc_points M st w cw seg_mm max_deg <> [].
Proof.
  rewrite linearize_length.
  pose proof (arc_steps_ge_1 (g_arc_len (arc_geom M st w cw)) (g_da (arc_geom M st w cw))
                seg_mm max_deg) as H.
  split; [lia|].
  intro Hnil. apply (f_equal (@length (Q * Q))) in Hnil.
  rewrite linearize_length in Hnil. simpl in Hnil. lia.
Qed.

(** ** C8: number of segments *)

(** C8 (as amended): with the arc and modal state fixed, the number of
    generated segments is
    [max(1, ceil(arcLen / max(seg_mm, 1e-6)) if seg_mm > 0 else 1,
            ceil(|sweep| / max(radians(max_deg), 1e-9)) if max_deg > 0 else 1)];
    hence, among positive targets, decreasing the target chord length or
    the target angular step never decreases the number of segments. *)
Theorem linearize_arc_points_segments (M : Libm) (st : State) (w : words) (cw : bool) :
  let g := arc_geom M st w cw in
  (forall seg_mm max_deg,
     length (linearize_arc_points M st w cw seg_mm max_deg)
     = Z.to_nat (Z.max 1
         (Z.max (if qlt 0 seg_mm then Qceiling (g.(g_arc_len) / pymax seg_mm (1 # 1000000))
                 else 1%Z)
                (if qlt 0 max_deg
                 then Qceiling (Qabs g.(g_da) / pymax (radians max_deg) (1 # 1000000000))
                 else 1%Z))))
  /\ (forall seg_mm seg_mm' max_deg, 0 < seg_mm' -> seg_mm' <= seg_mm ->
        (length (linearize_arc_points M st w cw seg_mm max_deg)
         <= length (linearize_arc_points M st w cw seg_mm' max_deg))%nat)
  /\ (forall seg_mm max_deg max_deg', 0 < max_deg' -> max_deg' <= max_deg ->
        (length (linearize_arc_points M st w cw seg_mm max_deg)
         <= length (linearize_arc_points M st w cw seg_mm max_deg'))%nat).
Proof.
  intro g. split; [|split].
  - intros seg_mm max_deg. rewrite linearize_length. fold g. unfold arc_steps.
    destruct (qlt 0 max_deg); reflexivity.
  - intros s s' deg Hs' Hs. rewrite !linearize_length.
    pose proof (arc_steps_mono_seg (g_arc_len (arc_geom M st w cw)) (g_da (arc_geom M st w cw))
                  s s' deg Hs' Hs). lia.
  - intros s deg deg' Hd' Hd. rewrite !linearize_length.
    pose proof (arc_steps_mono_deg (g_arc_len (arc_geom M st w cw)) (g_da (arc_geom M st w cw))
                  s deg deg' Hd' Hd). lia.
Qed.

Lemma linearize_arc_points_segments_witness :
  (0 < 1 # 10 /\ 1 # 10 <= 1 # 5)
  /\ (length (linearize_arc_points libm_q arc_ex_state arc_ex_words false (1 # 5) 0)
      <= length (linearize_arc_points libm_q arc_ex_state arc_ex_words false (1 # 10) 0))%nat.
Proof.
  assert (H1 : 0 < 1 # 10) by reflexivity.
  assert (H2 : 1 # 10 <= 1 # 5) by (vm_compute; discriminate).
  split; [split; assumption|].
  exact (proj1 (proj2 (linearize_arc_points_segments libm_q arc_ex_state arc_ex_words false))
           (1 # 5) (1 # 10) 0 H1 H2).
Defined.

(** C8 as stated fails: on the half circle of radius 1 from (1,0) to
    (-1,0) (arc length [math.pi]), lowering the chord target from 0.2 to 0
    lowers the count from 16 to 1, and a chord target of 1e-7 gives
    [ceil(pi / 1e-6)] segments, not [ceil(pi / 1e-7)]. *)
Lemma linearize_arc_points_segments_counterexample :
  length (linearize_arc_points libm_q arc_ex_state arc_ex_words false (1 # 5) 0) = 16%nat
  /\ length (linearize_arc_points libm_q arc_ex_state arc_ex_words false 0 0) = 1%nat
  /\ Z.of_nat (length (linearize_arc_points libm_q arc_ex_state arc_ex_words false
                                            (1 # 10000000) 0)) = 3141593%Z
  /\ Z.max 1 (Qceiling (py_pi / (1 # 10000000))) = 31415927%Z.
Proof.
  rewrite !linearize_length. split; [vm_compute; reflexivity|].
  split; [vm_compute; reflexivity|]. split; [|vm_compute; reflexivity].
  rewrite Z2Nat.id by (pose proof (arc_steps_ge_1
    (g_arc_len (arc_geom libm_q arc_ex_state arc_ex_words false))
    (g_da (arc_geom libm_q arc_ex_state arc_ex_words false)) (1 # 10000000) 0); lia).
  vm_compute. reflexivity.
Qed.

(** ** C3: the recenter solver *)

Lemma choose_translation_center (lo hi : Q) :
  choose_translation lo hi "center" = (1 # 2) * (lo + hi).
Proof. reflexivity. Qed.

(** C3 (as amended): once at least one point has been accumulated, the
    solver takes the interval [[bedMin+margin-minCoord, bedMax-margin-maxCoord]]
    per axis, fails exactly when on some axis the lower bound exceeds the
    upper one by more than [eps], and otherwise returns the midpoint under
    "center", and under "clamp" zero when zero lies in the interval and
    otherwise the endpoint of smaller magnitude; with a non-negative [eps],
    a box that exactly fits the bed minus margin gives the shift (0,0)
    under "clamp". *)
Theorem translation_for_box_solver (c : ScanCfg) (rc : RecenterCfg) (b : Box) :
  let bd := c.(bed) in
  let dx_lo := (bd.(bed_x_min) + rc.(margin)) - b.(minx) in
  let dx_hi := (bd.(bed_x_max) - rc.(margin)) - b.(maxx) in
  let dy_lo := (bd.(bed_y_min) + rc.(margin)) - b.(miny) in
  let dy_hi := (bd.(bed_y_max) - rc.(margin)) - b.(maxy) in
  (forall M k y_ref doc st,
     passB_scan M c k y_ref (init_state, None) doc = Ok (st, Some b) ->
     compute_translation_for_bounds M c k y_ref rc doc = translation_for_box c rc b)
  /\ (translation_for_box c rc b = Err (ErrNoFit b)
      <-> rc.(eps) < dx_lo - dx_hi \/ rc.(eps) < dy_lo - dy_hi)
  /\ (~ (rc.(eps) < dx_lo - dx_hi \/ rc.(eps) < dy_lo - dy_hi) ->
      translation_for_box c rc b
      = Ok (choose_translation dx_lo dx_hi rc.(recenter_mode),
            choose_translation dy_lo dy_hi rc.(recenter_mode), b))
  /\ (forall lo hi, choose_translation lo hi "center" == (lo + hi) / 2)
  /\ (forall lo hi, lo <= 0 <= hi -> choose_translation lo hi "clamp" = 0)
  /\ (forall lo hi, ~ (lo <= 0 <= hi) ->
        let d := choose_translation lo hi "clamp" in
        (d = lo \/ d = hi) /\ Qabs d <= Qabs lo /\ Qabs d <= Qabs hi)
  /\ (0 <= rc.(eps) -> rc.(recenter_mode) = "clamp" ->
      b.(minx) == bd.(bed_x_min) + rc.(margin) -> b.(maxx) == bd.(bed_x_max) - rc.(margin) ->
      b.(miny) == bd.(bed_y_min) + rc.(margin) -> b.(maxy) == bd.(bed_y_max) - rc.(margin) ->
      translation_for_box c rc b = Ok (0, 0, b)).
Proof.
  cbv zeta.
  split; [|split; [|split; [|split; [|split; [|split]]]]].
  - intros M k y_ref doc st H. unfold compute_translation_for_bounds.
    rewrite H. reflexivity.
  - unfold translation_for_box.
    destruct (qlt (eps rc) _) eqn:E1; destruct (qlt (eps rc) (_ - (bed_y_max _ - _ - _))) eqn:E2;
      qbool_hyps; simpl; split; intro H;
      try tauto; try discriminate; destruct H; lra.
  - intro H. unfold translation_for_box.
    destruct (qlt (eps rc) _) eqn:E1; destruct (qlt (eps rc) (_ - (bed_y_max _ - _ - _))) eqn:E2;
      qbool_hyps; simpl; tauto.
  - intros lo hi. rewrite choose_translation_center. field.
  - intros lo hi [H1 H2]. unfold choose_translation. simpl.
    apply Qle_bool_iff in H1. apply Qle_bool_iff in H2. rewrite H1, H2. reflexivity.
  - intros lo hi H. unfold choose_translation. simpl.
    destruct (Qle_bool lo 0) eqn:E1; destruct (Qle_bool 0 hi) eqn:E2;
      qbool_hyps;
      try (exfalso; apply H; split; assumption);
      destruct (qlt (Qabs lo) (Qabs hi)) eqn:E3; qbool_hyps; simpl;
      (split; [first [left; reflexivity | right; reflexivity]
              |split; first [apply Qle_refl | apply Qlt_le_weak; assumption | assumption]]).
  - intros He Hm H1 H2 H3 H4. unfold translation_for_box.
    assert (Ex : qlt (eps rc) (bed_x_min (bed c) + margin rc - minx b
                              - (bed_x_max (bed c) - margin rc - maxx b)) = false)
      by (apply qlt_false; rewrite H1, H2; lra).
    assert (Ey : qlt (eps rc) (bed_y_min (bed c) + margin rc - miny b
                              - (bed_y_max (bed c) - margin rc - maxy b)) = false)
      by (apply qlt_false; rewrite H3, H4; lra).
    rewrite Ex, Ey. simpl. rewrite Hm. unfold choose_translation. simpl.
    assert (Lx : Qle_bool (bed_x_min (bed c) + margin rc - minx b) 0 = true)
      by (apply Qle_bool_iff; rewrite H1; lra).
    assert (Hx : Qle_bool 0 (bed_x_max (bed c) - margin rc - maxx b) = true)
      by (apply Qle_bool_iff; rewrite H2; lra).
    assert (Ly : Qle_bool (bed_y_min (bed c) + margin rc - miny b) 0 = true)
      by (apply Qle_bool_iff; rewrite H3; lra).
    assert (Hy : Qle_bool 0 (bed_y_max (bed c) - margin rc - maxy b) = true)
      by (apply Qle_bool_iff; rewrite H4; lra).
    rewrite Lx, Hx, Ly, Hy. reflexivity.
Qed.

Definition bed_ex : Bed := mkBed 0 10 0 10.
Definition scan_ex : ScanCfg := mkScanCfg false 0 0 bed_ex.
Definition box_ex : Box := mkBox 1 9 1 9.

Lemma translation_for_box_solver_witness :
  translation_for_box scan_ex (mkRecenterCfg 1 "clamp" (1 # 100)) box_ex = Ok (0, 0, box_ex).
Proof.
  apply (proj2 (proj2 (proj2 (proj2 (proj2 (proj2
           (translation_for_box_solver scan_ex (mkRecenterCfg 1 "clamp" (1 # 100)) box_ex)))))));
    vm_compute; try reflexivity; discriminate.
Defined.

(** C3 as stated fails for a negative tolerance: the box X[1,9] Y[1,9]
    fits the bed [0,10]x[0,10] minus margin 1 with zero slack, yet with
    [eps = -0.01] the solver raises the cannot-fit error. *)
Lemma translation_for_box_counterexample :
  translation_for_box scan_ex (mkRecenterCfg 1 "clamp" (-1 # 100)) box_ex
  = Err (ErrNoFit box_ex).
Proof. vm_compute. reflexivity. Qed.

(** ** C4: relative XY in the rewrite pass *)

Lemma move_re_shape (s : string) :
  move_re s = true ->
  exists g d rest, s = String g (String d rest)
                   /\ Str.upper_char g = "G"%char /\ (d = "0"%char \/ d = "1"%char).
Proof.
  unfold move_re, g_cmd_match. destruct s as [|g [|d rest]]; try discriminate.
  intro H. apply andb_prop in H as [H _]. apply andb_prop in H as [Hg Hd].
  apply Ascii.eqb_eq in Hg. apply orb_prop in Hd.
  exists g, d, rest. split; [reflexivity|]. split; [exact Hg|].
  destruct Hd as [Hd|Hd]; apply Ascii.eqb_eq in Hd; auto.
Qed.

Lemma move_re_not_modal (s : string) : move_re s = true -> modal_of (Str.upper s) = None.
Proof.
  intro H. destruct (move_re_shape s H) as (g & d & rest & -> & Hg & [-> | ->]);
    simpl; rewrite Hg; reflexivity.
Qed.

Lemma move_re_not_arc (s : string) : move_re s = true -> arc_re s = false.
Proof.
  intro H. destruct (move_re_shape s H) as (g & d & rest & -> & Hg & [-> | ->]);
    unfold arc_re, g_cmd_match; rewrite Hg; reflexivity.
Qed.

(** Exactly when [rewrite_step] raises: a non-modal line with recentering
    on and relative XY, or a G0/G1 line with X or Y in relative XY. *)
Lemma rewrite_step_is_err (M : Libm) (cfg : RewriteCfg) (st : State) (line : string) :
  let s := Str.strip (fst (split_comment line)) in
  let w := parse_words (fst (split_comment line)) in
  is_err (rewrite_step M cfg st line)
  = match modal_of (Str.upper s) with
    | Some _ => false
    | None => (cfg.(rw_recenter) && negb st.(abs_xy))
              || (negb (arc_re s) && move_re s && (has "X" w || has "Y" w)
                  && negb st.(abs_xy))
    end.
Proof.
  cbv zeta. unfold rewrite_step.
  destruct (split_comment line) as [code comment]. simpl fst.
  destruct (modal_of (Str.upper (Str.strip code))); [reflexivity|].
  destruct (rw_recenter cfg), (abs_xy st); simpl; try reflexivity;
  destruct (arc_re (Str.strip code)); simpl;
  try (destruct (rw_linearize cfg);
       repeat match goal with
              | |- context [match ?p with (_, _) => _ end] => destruct p
              end; reflexivity);
  destruct (move_re (Str.strip code)); simpl; try reflexivity;
  destruct (has "X" (parse_words code)), (has "Y" (parse_words code)); simpl;
  repeat match goal with
         | |- context [match ?p with (_, _) => _ end] => destruct p
         end; reflexivity.
Qed.

(** C4: in the rewrite pass with recentering enabled, every non-modal
    line (blank, comment-only, move or anything else) processed while the
    tracked XY mode is relative raises the recentering error; with
    recentering disabled, a G0/G1 line carrying X or Y in relative XY mode
    raises the relative-XY error; and whether a line raises depends on the
    state only through the [abs_xy] flag. *)
Theorem rewrite_step_relative_xy (M : Libm) (cfg : RewriteCfg) :
  (forall st line, cfg.(rw_recenter) = true -> st.(abs_xy) = false ->
     modal_of (Str.upper (Str.strip (fst (split_comment line)))) = None ->
     rewrite_step M cfg st line = Err ErrRecenterAbsXY)
  /\ (forall st line, cfg.(rw_recenter) = false -> st.(abs_xy) = false ->
     move_re (Str.strip (fst (split_comment line))) = true ->
     (has "X" (parse_words (fst (split_comment line)))
      || has "Y" (parse_words (fst (split_comment line)))) = true ->
     rewrite_step M cfg st line = Err ErrSkewRelXY)
  /\ (forall st st' line, st.(abs_xy) = st'.(abs_xy) ->
     is_err (rewrite_step M cfg st line) = is_err (rewrite_step M cfg st' line)).
Proof.
  split; [|split].
  - intros st line Hr Hxy Hm. unfold rewrite_step.
    destruct (split_comment line) as [code comment]. simpl in Hm.
    rewrite Hm, Hr, Hxy. reflexivity.
  - intros st line Hr Hxy Hmv Hw. unfold rewrite_step.
    destruct (split_comment line) as [code comment]. simpl in Hmv, Hw.
    rewrite (move_re_not_modal _ Hmv), Hr, Hxy, (move_re_not_arc _ Hmv), Hmv. simpl.
    rewrite Hw. reflexivity.
  - intros st st' line H. rewrite !rewrite_step_is_err, H. reflexivity.
Qed.

Definition rw_cfg_ex (recenter : bool) : RewriteCfg :=
  mkRewriteCfg 0 0 0 0 false (1 # 5) 5 recenter 3 5.

Lemma rewrite_step_relative_xy_witness :
  rewrite_step libm_q (rw_cfg_ex true) (set_abs_xy false init_state) "; comment only"
    = Err ErrRecenterAbsXY
  /\ rewrite_step libm_q (rw_cfg_ex false) (set_abs_xy false init_state) "G1 X5 E1"
    = Err ErrSkewRelXY
  /\ is_err (rewrite_step libm_q (rw_cfg_ex false) (set_abs_xy false init_state) "G1 Z5")
     = is_err (rewrite_step libm_q (rw_cfg_ex false) (set_xy 3 4 (set_abs_xy false init_state)) "G1 Z5").
Proof.
  pose proof (rewrite_step_relative_xy libm_q (rw_cfg_ex true)) as [H1 _].
  pose proof (rewrite_step_relative_xy libm_q (rw_cfg_ex false)) as [_ [H2 H3]].
  split; [apply H1; reflexivity|].
  split; [apply H2; reflexivity|].
  apply H3. reflexivity.
Defined.

(** ** C5: E words on unrecognized lines *)

Local Abbreviation chars s := (list_ascii_of_string s) (only parsing).

(** Every character of [r] is a character of [s]. *)
Definition sub (r s : string) : Prop := forall ch, In ch (chars r) -> In ch (chars s).

Lemma sub_refl (s : string) : sub s s.
Proof. intros ch H. exact H. Qed.

Lemma sub_trans (a b c : string) : sub a b -> sub b c -> sub a c.
Proof. intros H1 H2 ch H. apply H2, H1, H. Qed.

Lemma sub_tail (ch : ascii) (r : string) : sub r (String ch r).
Proof. intros c' H. right. exact H. Qed.

Lemma take_char_sub (ch : ascii) (s r : string) : take_char ch s = Some r -> sub r s.
Proof.
  destruct s as [|c s']; simpl; [discriminate|].
  destruct (Ascii.eqb c ch); intro H; inversion H; subst; apply sub_tail.
Qed.

Lemma digits_sub (s : string) : sub (snd (digits s)) s.
Proof.
  induction s as [|c s' IH]; simpl; [apply sub_refl|].
  destruct (Str.is_digit c); [|apply sub_refl].
  destruct (digits s') as [ds rest] eqn:E. simpl in *.
  eapply sub_trans; [exact IH|apply sub_tail].
Qed.

Lemma lstrip_sub (s : string) : sub (Str.lstrip s) s.
Proof.
  induction s as [|c s' IH]; simpl; [apply sub_refl|].
  destruct (Str.is_space c); [|apply sub_refl].
  eapply sub_trans; [exact IH|apply sub_tail].
Qed.

Lemma match_number_sub (s rest : string) (v : Q) :
  match_number s = Some (v, rest) -> sub rest s.
Proof.
  unfold match_number.
  assert (Hs1 : sub (snd (match take_char "-" s with
                          | Some r => (true, r) | None => (false, s) end)) s).
  { destruct (take_char "-" s) eqn:E; [apply (take_char_sub _ _ _ E)|apply sub_refl]. }
  destruct (match take_char "-" s with Some r => (true, r) | None => (false, s) end)
    as [neg s1]. simpl in Hs1.
  pose proof (digits_sub s1) as Hd.
  destruct (digits s1) as [[|c ds] r] eqn:Ed; simpl in Hd.
  - destruct (take_char "." s1) as [r1|] eqn:Et; [|discriminate].
    pose proof (digits_sub r1) as Hd1.
    destruct (digits r1) as [[|f fs] r'] eqn:Ed1; [discriminate|].
    intro H. inversion H; subst. simpl in Hd1.
    eapply sub_trans; [exact Hd1|]. eapply sub_trans; [apply (take_char_sub _ _ _ Et)|exact Hs1].
  - destruct (take_char "." r) as [r1|] eqn:Et.
    + pose proof (digits_sub r1) as Hd1.
      destruct (digits r1) as [fs r''] eqn:Ed1. intro H. inversion H; subst. simpl in Hd1.
      eapply sub_trans; [exact Hd1|]. eapply sub_trans; [apply (take_char_sub _ _ _ Et)|].
      eapply sub_trans; [exact Hd|exact Hs1].
    + intro H. inversion H; subst. eapply sub_trans; [exact Hd|exact Hs1].
Qed.

Lemma scan_words_keys (fuel : nat) :
  forall (s : string) (acc : words) (k : ascii) (v : Q),
    In (k, v) (scan_words fuel s acc) ->
    In (k, v) acc \/ exists ch, In ch (chars s) /\ Str.upper_char ch = k.
Proof.
  induction fuel as [|fuel IH]; intros s acc k v H; simpl in H; [left; exact H|].
  destruct s as [|c r]; [left; exact H|].
  destruct (is_axis_letter c).
  - destruct (match_number (Str.lstrip r)) as [[v' rest]|] eqn:Em.
    + apply IH in H as [H|[ch [Hin Hup]]].
      * destruct H as [H|H].
        -- inversion H; subst. right. exists c. split; [left; reflexivity|reflexivity].
        -- left. exact H.
      * right. exists ch. split; [|exact Hup]. right.
        apply (lstrip_sub r), (match_number_sub _ _ _ Em), Hin.
    + apply IH in H as [H|[ch [Hin Hup]]]; [left; exact H|].
      right. exists ch. split; [right; exact Hin|exact Hup].
  - apply IH in H as [H|[ch [Hin Hup]]]; [left; exact H|].
    right. exists ch. split; [right; exact Hin|exact Hup].
Qed.

Lemma wget_in (k : ascii) (w : words) (v : Q) : wget k w = Some v -> In (k, v) w.
Proof.
  induction w as [|[k' v'] w IH]; simpl; [discriminate|].
  destruct (Ascii.eqb k k') eqn:E.
  - apply Ascii.eqb_eq in E. intro H. inversion H; subst. left; reflexivity.
  - intro H. right. apply IH, H.
Qed.

Lemma lstrip_keeps (ch : ascii) (s : string) :
  In ch (chars s) -> Str.is_space ch = false -> In ch (chars (Str.lstrip s)).
Proof.
  induction s as [|c s' IH]; simpl; intros H Hs; [contradiction|].
  destruct (Str.is_space c) eqn:Ec.
  - destruct H as [<-|H]; [congruence|]. apply IH; assumption.
  - exact H.
Qed.

Lemma rstrip_keeps (ch : ascii) (s : string) :
  In ch (chars s) -> Str.is_space ch = false -> In ch (chars (Str.rstrip s)).
Proof.
  intros H Hs. unfold Str.rstrip.
  rewrite list_ascii_of_string_of_list_ascii. apply in_rev. rewrite rev_involutive.
  apply lstrip_keeps; [|exact Hs].
  rewrite list_ascii_of_string_of_list_ascii. apply in_rev. rewrite rev_involutive. exact H.
Qed.

Lemma strip_keeps (ch : ascii) (s : string) :
  In ch (chars s) -> Str.is_space ch = false -> In ch (chars (Str.strip s)).
Proof.
  intros H Hs. unfold Str.strip. apply lstrip_keeps; [|exact Hs].
  apply rstrip_keeps; assumption.
Qed.

Lemma upper_contains (ch : ascii) (s : string) :
  In ch (chars s) -> Str.contains (Str.upper_char ch) (Str.upper s) = true.
Proof.
  induction s as [|c s' IH]; simpl; intro H; [contradiction|].
  destruct H as [->|H].
  - rewrite Ascii.eqb_refl. reflexivity.
  - rewrite IH by exact H. apply orb_true_r.
Qed.

Lemma upper_E_not_space (ch : ascii) : Str.upper_char ch = "E"%char -> Str.is_space ch = false.
Proof.
  intro H. destruct (Str.is_space ch) eqn:Es; [|reflexivity]. exfalso.
  assert (Hl : Str.is_lower ch = false).
  { unfold Str.is_space, Str.is_lower in *.
    destruct (97 <=? nat_of_ascii ch)%nat eqn:E1; simpl; [|reflexivity].
    apply Nat.leb_le in E1. apply orb_true_iff in Es.
    destruct Es as [Es|Es]; apply andb_prop in Es as [_ Es]; apply Nat.leb_le in Es; lia. }
  unfold Str.upper_char in H. rewrite Hl in H. subst ch. vm_compute in Es. discriminate.
Qed.

(** An E word parsed from [code] shows up as a letter E in [upper(strip(code))],
    so the [if "E" in up] test of the passes always lets it through. *)
Lemma parse_E_in_upper (code : string) (v : Q) :
  wget "E" (parse_words code) = Some v -> Str.contains "E" (Str.upper (Str.strip code)) = true.
Proof.
  intro H. apply wget_in in H. unfold parse_words in H.
  apply scan_words_keys in H as [H|[ch [Hin Hup]]]; [contradiction|].
  rewrite <- Hup. apply upper_contains, strip_keeps; [exact Hin|].
  apply upper_E_not_space, Hup.
Qed.

Lemma contains_nonempty (ch : ascii) (s : string) : Str.contains ch s = true -> Str.is_empty s = false.
Proof. destruct s; simpl; [discriminate|reflexivity]. Qed.

Lemma upper_is_empty (s : string) : Str.is_empty (Str.upper s) = Str.is_empty s.
Proof. destruct s; reflexivity. Qed.

(** C5 (as amended): in pass A, and in pass B while XY is absolute, a
    line that is not a modal, G0/G1 or G2/G3 command but carries an E word
    sets [e] to the word under absolute extrusion, adds it under relative
    extrusion, and leaves the rest of the state and the accumulated box
    unchanged; in pass B under relative XY (G91) such a line raises the
    recentering error instead. *)
Theorem unrecognized_E_line_updates_e (M : Libm) (c : ScanCfg) (k y_ref : Q)
    (st : State) (acc : option Box) (line : string) (v : Q) :
  let code := fst (split_comment line) in
  let s := Str.strip code in
  modal_of (Str.upper s) = None -> arc_re s = false -> move_re s = false ->
  wget "E" (parse_words code) = Some v ->
  passA_step M c (st, acc) line = (set_e (if st.(abs_e) then v else st.(e) + v) st, acc)
  /\ (st.(abs_xy) = true ->
      passB_step M c k y_ref (st, acc) line
      = Ok (set_e (if st.(abs_e) then v else st.(e) + v) st, acc))
  /\ (st.(abs_xy) = false ->
      passB_step M c k y_ref (st, acc) line = Err ErrRecenterAbsXY).
Proof.
  cbv zeta. intros Hm Ha Hmv He.
  pose proof (parse_E_in_upper _ _ He) as Hc.
  pose proof (contains_nonempty _ _ Hc) as Hne. rewrite upper_is_empty in Hne.
  unfold passA_step, passB_step.
  destruct (split_comment line) as [code comment]. simpl in *.
  rewrite Hne, Hm, Ha, Hmv, Hc. unfold update_e. rewrite He.
  split; [reflexivity|]. split; intro Hxy; rewrite Hxy; reflexivity.
Qed.

Lemma unrecognized_E_line_updates_e_witness :
  passA_step libm_q scan_ex (set_e 5 init_state, None) "G92 E0"
  = (set_e 0 (set_e 5 init_state), None).
Proof.
  apply (proj1 (unrecognized_E_line_updates_e libm_q scan_ex 0 0 (set_e 5 init_state) None
                  "G92 E0" 0 eq_refl eq_refl eq_refl eq_refl)).
Defined.

(** C5 as stated fails: after [M82] and E at 5, the line [G92 E0] raises
    in pass B under G91, and in the rewrite pass it leaves [e] at 5 (the
    rewrite pass has no branch for E words outside moves). *)
Lemma unrecognized_E_line_counterexample :
  passB_step libm_q scan_ex 0 0 (set_abs_xy false (set_e 5 init_state), None) "G92 E0"
  = Err ErrRecenterAbsXY
  /\ rewrite_step libm_q (rw_cfg_ex false) (set_e 5 init_state) "G92 E0"
     = Ok (set_e 5 init_state, [OText "G92 E0"]).
Proof. split; vm_compute; reflexivity. Qed.

(** ** C6: resolving G0/G1 targets in pass A *)

Definition bed_default : Bed := mkBed 0 250 0 220.
Definition scan_default : ScanCfg := mkScanCfg false (1 # 5) 5 bed_default.

(** C6 (code bug): pass A resolves the X/Y of a G0/G1 line with
    [words.get("X", st.x)] whatever the XY mode, so after [G91] the move
    [G1 X5 Y5 E2] from (10,10) is recorded at (5,5) instead of (15,15),
    while the G2 arc branch of the same pass, through [_arc_end_abs],
    does resolve [X5 Y5] relative to (10,10). *)
Lemma compute_inbed_bounds_relative_g1 (M : Libm) :
  compute_inbed_extruding_bounds_original M scan_default
    ["G1 X10 Y10 E1"; "G91"; "G1 X5 Y5 E2"] = mkBox 5 10 5 10
  /\ compute_inbed_extruding_bounds_original M scan_default
    ["G1 X10 Y10 E1"; "G91"; "G2 X5 Y5 I0 J0 E2"] = mkBox 10 15 10 15.
Proof. split; reflexivity. Qed.

(** ** C9: formatting and re-parsing *)

(** C9 (code bug): [_fmt_fixed(10.0, 0)] is ["1"]: [f"{10.0:.0f}"] is
    ["10"] and [rstrip("0")] also eats the zero of the integer part when
    there is no decimal point; re-parsed by [AXIS_RE] the token is 1, nine
    units of the last printed place away from 10. *)
Lemma fmt_fixed_zero_places_strips_integer_zeros :
  py_fixed 10 0 = "10"
  /\ fmt_fixed 10 0 = "1"
  /\ fmt_axis "X" 10 0 5 = "1"
  /\ wget "X" (parse_words ("G1 X" ++ fmt_axis "X" 10 0 5)) = Some 1
  /\ 1 < Qabs (10 - 1).
Proof. vm_compute. repeat split; reflexivity. Qed.

(** ** C7: the empty accumulator *)

Lemma upd_not_none (acc : option Box) (px py : Q) : upd acc px py <> None.
Proof. destruct acc; discriminate. Qed.

Lemma fold_if_none {A B : Type} (P : A -> bool) (h : option B -> A -> option B) :
  (forall a p, h a p <> None) ->
  forall pts acc,
    fold_left (fun acc p => if P p then h acc p else acc) pts acc = None
    <-> acc = None /\ forallb (fun p => negb (P p)) pts = true.
Proof.
  intros Hh pts. induction pts as [|p pts IH]; intro acc; simpl.
  - tauto.
  - rewrite IH. destruct (P p); simpl.
    + split; [intros [H _]; exfalso; exact (Hh _ _ H) | intros [_ H]; discriminate].
    + tauto.
Qed.

Lemma passB_step_err (M : Libm) (c : ScanCfg) (k y_ref : Q) sa line er :
  passB_step M c k y_ref sa line = Err er -> er = ErrRecenterAbsXY.
Proof.
  unfold passB_step. destruct sa as [st acc]. destruct (split_comment line) as [code cm].
  destruct (Str.is_empty _); [discriminate|].
  destruct (modal_of _); [discriminate|].
  destruct (negb (abs_xy st)); [congruence|].
  destruct (arc_re _).
  - destruct (arc_end_abs st (parse_words code)); discriminate.
  - destruct (move_re _); [discriminate|].
    destruct (Str.contains _ _); discriminate.
Qed.

Lemma passB_scan_err (M : Libm) (c : ScanCfg) (k y_ref : Q) doc :
  forall sa er, passB_scan M c k y_ref sa doc = Err er -> er = ErrRecenterAbsXY.
Proof.
  induction doc as [|line rest IH]; intros sa er H; simpl in H; [discriminate|].
  unfold bind in H. destruct (passB_step M c k y_ref sa line) eqn:E.
  - exact (IH _ _ H).
  - inversion H; subst. exact (passB_step_err _ _ _ _ _ _ _ E).
Qed.

(** A step of pass B that succeeds is a step of pass A on the same state,
    and the two accumulators stay empty together. *)
Lemma passB_step_passA (M : Libm) (c : ScanCfg) (k y_ref : Q) st accA accB line st' accB' :
  (accA = None <-> accB = None) ->
  passB_step M c k y_ref (st, accB) line = Ok (st', accB') ->
  fst (passA_step M c (st, accA) line) = st'
  /\ (snd (passA_step M c (st, accA) line) = None <-> accB' = None).
Proof.
  intros Hacc. unfold passA_step, passB_step.
  destruct (split_comment line) as [code cm].
  destruct (Str.is_empty _); [intro H; injection H; intros; subst; simpl; auto|].
  destruct (modal_of _); [intro H; injection H; intros; subst; simpl; auto|].
  destruct (abs_xy st); simpl; [|discriminate].
  destruct (arc_re _).
  - destruct (arc_end_abs st (parse_words code)) as [x1 y1].
    intro H; injection H; intros; subst; simpl. split; [reflexivity|].
    destruct (is_extruding_move st (parse_words code)); [|exact Hacc].
    destruct (linearize c).
    + rewrite (fold_if_none (fun p => in_bed (bed c) (fst p) (snd p))
                 (fun acc p => upd acc (fst p) (snd p)) (fun a p => upd_not_none a _ _)).
      rewrite (fold_if_none (fun p => in_bed (bed c) (fst p) (snd p))
                 (fun acc p => let '(xs, ys) := apply_skew_abs (fst p) (snd p) k y_ref in
                               upd acc xs ys)
                 (fun a p => match apply_skew_abs (fst p) (snd p) k y_ref as q
                               return (let '(xs, ys) := q in upd a xs ys) <> None with
                             | (xs, ys) => upd_not_none a xs ys end)).
      tauto.
    + destruct (in_bed (bed c) x1 y1); [|exact Hacc].
      split; intro H0; exfalso; eapply upd_not_none; exact H0.
  - destruct (move_re _).
    + intro H; injection H; intros; subst; simpl. split; [reflexivity|].
      destruct (is_extruding_move _ _ && in_bed _ _ _); [|exact Hacc].
      split; intro H0; exfalso; eapply upd_not_none; exact H0.
    + destruct (Str.contains _ _); intro H; injection H; intros; subst; simpl; auto.
Qed.

Lemma passB_scan_passA (M : Libm) (c : ScanCfg) (k y_ref : Q) doc :
  forall st accA accB st' accB',
  (accA = None <-> accB = None) ->
  passB_scan M c k y_ref (st, accB) doc = Ok (st', accB') ->
  (snd (fold_left (passA_step M c) doc (st, accA)) = None <-> accB' = None).
Proof.
  induction doc as [|line rest IH]; intros st accA accB st' accB' Hacc H.
  - simpl in H. injection H; intros; subst; exact Hacc.
  - change (bind (passB_step M c k y_ref (st, accB) line)
                 (fun sa' => passB_scan M c k y_ref sa' rest) = Ok (st', accB')) in H.
    unfold bind in H.
    change (snd (fold_left (passA_step M c) rest (passA_step M c (st, accA) line)) = None
            <-> accB' = None).
    destruct (passB_step M c k y_ref (st, accB) line) as [[st1 accB1]|er] eqn:E; [|discriminate].
    destruct (passB_step_passA M c k y_ref st accA accB line st1 accB1 Hacc E) as [Hst Hn].
    destruct (passA_step M c (st, accA) line) as [stA accA1]. simpl in Hst, Hn. subst stA.
    exact (IH st1 accA1 accB1 st' accB' Hn H).
Qed.

Definition recenter_ex : RecenterCfg := mkRecenterCfg 0 "clamp" (1 # 100).

(** C7 (as amended): when pass A accepts no extruding in-bed point, it
    reports the zero box (the same value as a box of points all at the
    origin), and pass B either returns the zero translation with the zero
    box or stops with the relative-XY recentering error; it never reports
    that the geometry cannot fit. *)
Theorem no_inbed_points_zero_box (M : Libm) (c : ScanCfg) (k y_ref : Q)
    (rc : RecenterCfg) (doc : list string) :
  snd (passA_scan M c doc) = None ->
  compute_inbed_extruding_bounds_original M c doc = zero_box
  /\ (compute_translation_for_bounds M c k y_ref rc doc = Ok (0, 0, zero_box)
      \/ compute_translation_for_bounds M c k y_ref rc doc = Err ErrRecenterAbsXY).
Proof.
  intro HA. split.
  - unfold compute_inbed_extruding_bounds_original. rewrite HA. reflexivity.
  - unfold compute_translation_for_bounds, bind.
    destruct (passB_scan M c k y_ref (init_state, None) doc) as [[st' accB']|er] eqn:E.
    + left. unfold passA_scan in HA.
      assert (Hn : accB' = None).
      { apply (passB_scan_passA M c k y_ref doc init_state None None st' accB'
                 (conj (fun h => h) (fun h => h)) E). exact HA. }
      simpl. rewrite Hn. reflexivity.
    + right. rewrite (passB_scan_err M c k y_ref doc _ _ E). reflexivity.
Qed.

Lemma no_inbed_points_zero_box_witness :
  compute_inbed_extruding_bounds_original libm_q scan_default ["G1 X300 Y10 E1"] = zero_box
  /\ (compute_translation_for_bounds libm_q scan_default 0 0 recenter_ex ["G1 X300 Y10 E1"]
        = Ok (0, 0, zero_box)
      \/ compute_translation_for_bounds libm_q scan_default 0 0 recenter_ex ["G1 X300 Y10 E1"]
        = Err ErrRecenterAbsXY).
Proof.
  apply (no_inbed_points_zero_box libm_q scan_default 0 0 recenter_ex ["G1 X300 Y10 E1"]).
  vm_compute. reflexivity.
Defined.

(** C7 as stated fails: pass A returns the same box for an empty input and
    for a single extrusion at the origin, and pass B on an input with no
    extruding point raises the relative-XY error once G91 is active. *)
Lemma no_inbed_points_counterexample :
  compute_inbed_extruding_bounds_original libm_q scan_default []
  = compute_inbed_extruding_bounds_original libm_q scan_default ["G1 X0 Y0 E1"]
  /\ snd (passA_scan libm_q scan_default []) = None
  /\ snd (passA_scan libm_q scan_default ["G1 X0 Y0 E1"]) = Some zero_box
  /\ snd (passA_scan libm_q scan_default ["G91"; "G1 X-5 Y0"]) = None
  /\ compute_translation_for_bounds libm_q scan_default 0 0 recenter_ex ["G91"; "G1 X-5 Y0"]
     = Err ErrRecenterAbsXY.
Proof. vm_compute. repeat split; reflexivity. Qed.

(* ================================================================== *)
(** * Further properties of the script *)

(** ** [_assert_text_gcode] *)

Lemma bytes_prefix_firstn (p s : list Byte.byte) (n : nat) :
  (length p <= n)%nat -> bytes_prefix p s = true -> bytes_prefix p (firstn n s) = true.
Proof.
  revert s n. induction p as [|b p IH]; intros s n Hn H; [reflexivity|].
  destruct s as [|c s]; [discriminate|]. destruct n as [|n]; [simpl in Hn; lia|].
  simpl in *. apply andb_prop in H as [H1 H2]. rewrite H1. simpl.
  apply IH; [lia|exact H2].
Qed.

Lemma bytes_prefix_contains (p s : list Byte.byte) :
  bytes_prefix p s = true -> bytes_contains p s = true.
Proof. intro H. destruct s; simpl; rewrite H; reflexivity. Qed.

Lemma existsb_byte_in (b : Byte.byte) (l : list Byte.byte) :
  existsb (Byte.eqb b) l = true <-> In b l.
Proof.
  rewrite existsb_exists. split.
  - intros [c [Hin Hc]]. apply Byte.byte_dec_bl in Hc. subst. exact Hin.
  - intro H. exists b. split; [exact H|]. apply Byte.byte_dec_lb. reflexivity.
Qed.

(** [_assert_text_gcode] accepts a file exactly when the bytes [GCDE] do
    not occur within its first 64 bytes and no NUL byte occurs within its
    first 512 bytes; its [startswith(b"GCDE")] test never decides anything
    the search in the first 64 bytes does not. *)
Theorem assert_text_gcode_accepts (data : list Byte.byte) :
  assert_text_gcode data = None
  <-> bytes_contains gcde (firstn 64 data) = false /\ ~ In Byte.x00 (firstn 512 data).
Proof.
  unfold assert_text_gcode.
  rewrite firstn_firstn. replace (Nat.min 64 512) with 64%nat by reflexivity.
  assert (Hp : bytes_prefix gcde (firstn 512 data) = true ->
               bytes_contains gcde (firstn 64 data) = true).
  { intro H. apply bytes_prefix_contains.
    replace (firstn 64 data) with (firstn 64 (firstn 512 data)) by (rewrite firstn_firstn; reflexivity).
    apply bytes_prefix_firstn; [simpl; lia|exact H]. }
  destruct (bytes_prefix gcde (firstn 512 data)) eqn:E1.
  - rewrite (Hp eq_refl). cbn [orb]. split; [intro Hc; discriminate Hc|intros [Hc _]; discriminate Hc].
  - cbn [orb]. destruct (bytes_contains gcde (firstn 64 data)).
    + split; [intro Hc; discriminate Hc|intros [Hc _]; discriminate Hc].
    + destruct (existsb (Byte.eqb Byte.x00) (firstn 512 data)) eqn:E2.
      * apply existsb_byte_in in E2. split; [intro Hc; discriminate Hc|intros [_ Hc]; contradiction].
      * split; [intros _; split; [reflexivity|]|reflexivity].
        intro H. apply existsb_byte_in in H. congruence.
Qed.

(** Only the first 512 bytes are examined: whatever follows them (a NUL
    byte or the [GCDE] magic included) never changes the verdict. *)
Theorem assert_text_gcode_head_only (data extra : list Byte.byte) :
  (512 <= length data)%nat -> assert_text_gcode (data ++ extra) = assert_text_gcode data.
Proof.
  intro H. unfold assert_text_gcode.
  rewrite firstn_app. replace (512 - length data)%nat with 0%nat by lia.
  simpl. rewrite app_nil_r. reflexivity.
Qed.

Lemma assert_text_gcode_head_only_witness :
  assert_text_gcode (repeat Byte.x20 512 ++ [Byte.x00]) = assert_text_gcode (repeat Byte.x20 512)
  /\ assert_text_gcode (repeat Byte.x20 512) = None.
Proof.
  split.
  - apply (assert_text_gcode_head_only (repeat Byte.x20 512) [Byte.x00]).
    rewrite repeat_length. lia.
  - vm_compute. reflexivity.
Defined.

(** ** [split_comment] *)

Lemma chars_app (a b : string) : chars (a ++ b) = app (chars a) (chars b).
Proof. induction a as [|c a IH]; simpl; [reflexivity|rewrite IH; reflexivity]. Qed.

Lemma string_of_list_ascii_app (l1 l2 : list ascii) :
  string_of_list_ascii (app l1 l2) = string_of_list_ascii l1 ++ string_of_list_ascii l2.
Proof. induction l1 as [|c l1 IH]; simpl; [reflexivity|rewrite IH; reflexivity]. Qed.

Lemma string_append_nil_r (s : string) : s ++ "" = s.
Proof. induction s as [|c s IH]; simpl; [reflexivity|rewrite IH; reflexivity]. Qed.

Lemma string_append_assoc (a b c : string) : (a ++ b) ++ c = a ++ (b ++ c).
Proof. induction a as [|ch a IH]; simpl; [reflexivity|rewrite IH; reflexivity]. Qed.

Lemma lstrip_split (s : string) :
  exists ws, s = ws ++ Str.lstrip s /\ forall ch, In ch (chars ws) -> Str.is_space ch = true.
Proof.
  induction s as [|c r IH]; simpl.
  - exists ""%string. split; [reflexivity|intros ch []].
  - destruct (Str.is_space c) eqn:Ec.
    + destruct IH as [ws [Hr Hws]]. exists (String c ws). split.
      * simpl. rewrite <- Hr. reflexivity.
      * intros ch [<-|H]; [exact Ec|exact (Hws ch H)].
    + exists ""%string. split; [reflexivity|intros ch []].
Qed.

Lemma rstrip_split (s : string) :
  exists ws, s = Str.rstrip s ++ ws /\ forall ch, In ch (chars ws) -> Str.is_space ch = true.
Proof.
  unfold Str.rstrip.
  set (t := string_of_list_ascii (rev (chars s))).
  destruct (lstrip_split t) as [ws [Ht Hws]].
  exists (string_of_list_ascii (rev (chars ws))). split.
  - rewrite <- string_of_list_ascii_app, <- rev_app_distr, <- chars_app, <- Ht.
    unfold t. rewrite list_ascii_of_string_of_list_ascii, rev_involutive.
    symmetry. apply string_of_list_ascii_of_string.
  - intros ch H. rewrite list_ascii_of_string_of_list_ascii in H.
    apply Hws, in_rev. exact H.
Qed.

Lemma rstrip_sub (s : string) : sub (Str.rstrip s) s.
Proof.
  intros ch H. destruct (rstrip_split s) as [ws [Hs _]].
  rewrite Hs, chars_app. apply in_or_app. left. exact H.
Qed.

Lemma split_semi_some (s a b : string) :
  split_semi s = Some (a, b) -> s = a ++ String ";" b /\ ~ In ";"%char (chars a).
Proof.
  revert a b. induction s as [|c r IH]; intros a b H; simpl in H; [discriminate|].
  destruct (Ascii.eqb c ";") eqn:Ec.
  - apply Ascii.eqb_eq in Ec. injection H as <- <-. subst c. split; [reflexivity|intros []].
  - destruct (split_semi r) as [[a' b']|] eqn:Er; [|discriminate].
    injection H as <- <-. destruct (IH a' b' eq_refl) as [Hr Ha]. split.
    + simpl. rewrite <- Hr. reflexivity.
    + simpl. intros [Hc|Hin]; [subst c; rewrite Ascii.eqb_refl in Ec; discriminate|].
      exact (Ha Hin).
Qed.

Lemma split_semi_none (s : string) : split_semi s = None -> ~ In ";"%char (chars s).
Proof.
  induction s as [|c r IH]; simpl; intros H; [intros []|].
  destruct (Ascii.eqb c ";") eqn:Ec; [discriminate|].
  destruct (split_semi r) as [[a b]|]; [discriminate|].
  intros [Hc|Hin]; [subst c; rewrite Ascii.eqb_refl in Ec; discriminate|].
  exact (IH eq_refl Hin).
Qed.

(** [split_comment] loses nothing but the white space it strips: the line is
    the code part, then white space, then the comment part; the code part has
    no [;], and the comment part is either empty (the line had no [;]) or
    starts with the line's first [;]. *)
Theorem split_comment_parts (line : string) :
  let '(code, comment) := split_comment line in
  (exists ws, line = code ++ ws ++ comment
              /\ forall ch, In ch (chars ws) -> Str.is_space ch = true)
  /\ ~ In ";"%char (chars code)
  /\ ((comment = ""%string /\ ~ In ";"%char (chars line))
      \/ exists r, comment = String ";" r).
Proof.
  unfold split_comment. destruct (split_semi line) as [[a b]|] eqn:E.
  - destruct (split_semi_some _ _ _ E) as [Hl Ha].
    destruct (rstrip_split a) as [ws [Hws Hsp]]. split; [|split].
    + exists ws. split; [|exact Hsp].
      rewrite Hl at 1. rewrite Hws at 1. rewrite string_append_assoc. reflexivity.
    + intro H. apply Ha, rstrip_sub, H.
    + right. exists b. reflexivity.
  - pose proof (split_semi_none _ E) as Hn.
    destruct (rstrip_split line) as [ws [Hws Hsp]]. split; [|split].
    + exists ws. split; [|exact Hsp]. rewrite string_append_nil_r. exact Hws.
    + intro H. apply Hn, rstrip_sub, H.
    + left. split; [reflexivity|exact Hn].
Qed.

(** ** [parse_words] *)





(** ** [_sweep] *)



Lemma inject_nat_nonneg (n : nat) : 0 <= inject_Z (Z.of_nat n).
Proof. change 0 with (inject_Z 0). rewrite <- Zle_Qle. lia. Qed.






(** ** Bounds of the two scans *)

Lemma pymin_le_l (a b : Q) : pymin a b <= a.
Proof.
  unfold pymin. destruct (qlt b a) eqn:E; [apply qlt_true in E; lra|apply Qle_refl].
Qed.

Lemma pymin_glb (l a b : Q) : l <= a -> l <= b -> l <= pymin a b.
Proof. intros Ha Hb. unfold pymin. destruct (qlt b a); assumption. Qed.

Lemma pymax_ge_l (a b : Q) : a <= pymax a b.
Proof.
  unfold pymax. destruct (qlt a b) eqn:E; [apply qlt_true in E; lra|apply Qle_refl].
Qed.

Lemma pymax_lub (u a b : Q) : a <= u -> b <= u -> pymax a b <= u.
Proof. intros Ha Hb. unfold pymax. destruct (qlt a b); assumption. Qed.

Lemma in_bed_iff (bd : Bed) (px py : Q) :
  in_bed bd px py = true <->
  bd.(bed_x_min) <= px /\ px <= bd.(bed_x_max) /\ bd.(bed_y_min) <= py /\ py <= bd.(bed_y_max).
Proof.
  unfold in_bed. rewrite !andb_true_iff, !Qle_bool_iff. tauto.
Qed.

(** A box that lies inside the bed rectangle, with its minima below its
    maxima. *)
Definition box_inside (bd : Bed) (b : Box) : Prop :=
  bd.(bed_x_min) <= b.(minx) /\ b.(minx) <= b.(maxx) /\ b.(maxx) <= bd.(bed_x_max)
  /\ bd.(bed_y_min) <= b.(miny) /\ b.(miny) <= b.(maxy) /\ b.(maxy) <= bd.(bed_y_max).

Definition acc_inside (bd : Bed) (acc : option Box) : Prop :=
  match acc with None => True | Some b => box_inside bd b end.

Lemma upd_inside (bd : Bed) (acc : option Box) (px py : Q) :
  acc_inside bd acc -> in_bed bd px py = true -> acc_inside bd (upd acc px py).
Proof.
  intros Ha Hb. apply in_bed_iff in Hb as (H1 & H2 & H3 & H4).
  destruct acc as [b|]; simpl in *.
  - destruct Ha as (A1 & A2 & A3 & A4 & A5 & A6). unfold box_inside; simpl.
    repeat split.
    + apply pymin_glb; assumption.
    + eapply Qle_trans; [apply pymin_le_l|]. eapply Qle_trans; [exact A2|apply pymax_ge_l].
    + apply pymax_lub; assumption.
    + apply pymin_glb; assumption.
    + eapply Qle_trans; [apply pymin_le_l|]. eapply Qle_trans; [exact A5|apply pymax_ge_l].
    + apply pymax_lub; assumption.
  - unfold box_inside; simpl. repeat split; try assumption; apply Qle_refl.
Qed.

Lemma fold_inside (bd : Bed) (pts : list (Q * Q)) :
  forall acc, acc_inside bd acc ->
  acc_inside bd (fold_left (fun acc p => if in_bed bd (fst p) (snd p)
                                         then upd acc (fst p) (snd p) else acc) pts acc).
Proof.
  induction pts as [|p pts IH]; intros acc H; simpl; [exact H|].
  apply IH. destruct (in_bed bd (fst p) (snd p)) eqn:E; [apply upd_inside|]; assumption.
Qed.

Lemma passA_step_inside (M : Libm) (c : ScanCfg) (st : State) (acc : option Box) (line : string) :
  acc_inside c.(bed) acc -> acc_inside c.(bed) (snd (passA_step M c (st, acc) line)).
Proof.
  intro H. unfold passA_step.
  destruct (split_comment line) as [code cm].
  destruct (Str.is_empty _); [exact H|].
  destruct (modal_of _); [exact H|].
  destruct (arc_re _).
  - destruct (arc_end_abs st (parse_words code)) as [x1 y1]. simpl.
    destruct (is_extruding_move st (parse_words code)); [|exact H].
    destruct (linearize c); [apply fold_inside, H|].
    destruct (in_bed (bed c) x1 y1) eqn:E; [apply upd_inside|]; assumption.
  - destruct (move_re _); simpl.
    + destruct (is_extruding_move _ _ && in_bed _ _ _) eqn:E; [|exact H].
      apply andb_prop in E as [_ E]. apply upd_inside; assumption.
    + destruct (Str.contains _ _); exact H.
Qed.

Lemma passA_fold_inside (M : Libm) (c : ScanCfg) (doc : list string) :
  forall st acc, acc_inside c.(bed) acc ->
  acc_inside c.(bed) (snd (fold_left (passA_step M c) doc (st, acc))).
Proof.
  induction doc as [|line doc IH]; intros st acc H; cbn [fold_left]; [exact H|].
  destruct (passA_step M c (st, acc) line) as [st' acc'] eqn:E.
  apply IH. change acc' with (snd (st', acc')). rewrite <- E. apply passA_step_inside, H.
Qed.

(** [compute_inbed_extruding_bounds_original] returns either the zero box,
    when no point was accepted, or a box lying inside the bed rectangle
    with its minima below its maxima. *)
Theorem inbed_bounds_inside_bed (M : Libm) (c : ScanCfg) (doc : list string) :
  let b := compute_inbed_extruding_bounds_original M c doc in
  (snd (passA_scan M c doc) = None /\ b = zero_box)
  \/ (snd (passA_scan M c doc) = Some b /\ box_inside c.(bed) b).
Proof.
  cbv zeta. unfold compute_inbed_extruding_bounds_original.
  pose proof (passA_fold_inside M c doc init_state None I) as H.
  unfold passA_scan. destruct (snd (fold_left (passA_step M c) doc (init_state, None))).
  - right. split; [reflexivity|exact H].
  - left. split; reflexivity.
Qed.

(** Extrusion decides everything: in pass A a line without an E word never
    changes the box, so a document with no E word at all yields the zero
    box, whatever its moves. *)
Lemma passA_step_no_E (M : Libm) (c : ScanCfg) (st : State) (acc : option Box) (line : string) :
  wget "E" (parse_words (fst (split_comment line))) = None ->
  snd (passA_step M c (st, acc) line) = acc.
Proof.
  unfold passA_step. destruct (split_comment line) as [code cm]. simpl fst. intro HE.
  assert (Hx : is_extruding_move st (parse_words code) = false)
    by (unfold is_extruding_move; rewrite HE; reflexivity).
  destruct (Str.is_empty _); [reflexivity|].
  destruct (modal_of _); [reflexivity|].
  destruct (arc_re _).
  - destruct (arc_end_abs st (parse_words code)). simpl. rewrite Hx. reflexivity.
  - destruct (move_re _); simpl; [rewrite Hx; reflexivity|].
    destruct (Str.contains _ _); reflexivity.
Qed.

Theorem passA_no_E_zero_box (M : Libm) (c : ScanCfg) (doc : list string) :
  (forall line, In line doc -> wget "E" (parse_words (fst (split_comment line))) = None) ->
  snd (passA_scan M c doc) = None /\ compute_inbed_extruding_bounds_original M c doc = zero_box.
Proof.
  intro H.
  assert (Hs : forall st acc, snd (fold_left (passA_step M c) doc (st, acc)) = acc).
  { induction doc as [|line doc IH]; intros st acc; cbn [fold_left]; [reflexivity|].
    destruct (passA_step M c (st, acc) line) as [st' acc'] eqn:E.
    assert (Ha : acc' = acc).
    { change acc' with (snd (st', acc')). rewrite <- E.
      apply passA_step_no_E, H. left; reflexivity. }
    subst acc'. apply IH. intros l Hl. apply H. right; exact Hl. }
  unfold compute_inbed_extruding_bounds_original, passA_scan. rewrite Hs. split; reflexivity.
Qed.

Lemma passA_no_E_zero_box_witness :
  snd (passA_scan libm_q scan_default ["G1 X10 Y10"; "G2 X20 Y10 I5 J0"; "G1 X30 Y10 F3000"]) = None
  /\ compute_inbed_extruding_bounds_original libm_q scan_default
       ["G1 X10 Y10"; "G2 X20 Y10 I5 J0"; "G1 X30 Y10 F3000"] = zero_box.
Proof.
  apply passA_no_E_zero_box.
  intros l Hl. repeat (destruct Hl as [<-|Hl]; [vm_compute; reflexivity|]). destruct Hl.
Defined.

(** Pass A's and pass B's accumulators: both empty, or boxes with the same
    Y range. *)
Definition same_y (accA accB : option Box) : Prop :=
  match accA, accB with
  | None, None => True
  | Some a, Some b => a.(miny) = b.(miny) /\ a.(maxy) = b.(maxy)
  | _, _ => False
  end.

Lemma upd_same_y (accA accB : option Box) (xa xb py : Q) :
  same_y accA accB -> same_y (upd accA xa py) (upd accB xb py).
Proof.
  destruct accA as [a|], accB as [b|]; simpl; try tauto.
  intros [H1 H2]. rewrite H1, H2. split; reflexivity.
Qed.

Lemma fold_same_y (bd : Bed) (k y_ref : Q) (pts : list (Q * Q)) :
  forall accA accB, same_y accA accB ->
  same_y (fold_left (fun acc p => if in_bed bd (fst p) (snd p)
                                  then upd acc (fst p) (snd p) else acc) pts accA)
         (fold_left (fun acc p => if in_bed bd (fst p) (snd p)
                                  then let '(xs, ys) := apply_skew_abs (fst p) (snd p) k y_ref in
                                       upd acc xs ys
                                  else acc) pts accB).
Proof.
  induction pts as [|p pts IH]; intros accA accB H; simpl; [exact H|].
  apply IH. destruct (in_bed bd (fst p) (snd p)); [apply upd_same_y|]; exact H.
Qed.

Lemma passB_step_same_y (M : Libm) (c : ScanCfg) (k y_ref : Q) st accA accB line st' accB' :
  same_y accA accB ->
  passB_step M c k y_ref (st, accB) line = Ok (st', accB') ->
  fst (passA_step M c (st, accA) line) = st'
  /\ same_y (snd (passA_step M c (st, accA) line)) accB'.
Proof.
  intros Hacc. unfold passA_step, passB_step.
  destruct (split_comment line) as [code cm].
  destruct (Str.is_empty _); [intro H; injection H; intros; subst; simpl; auto|].
  destruct (modal_of _); [intro H; injection H; intros; subst; simpl; auto|].
  destruct (abs_xy st); simpl; [|discriminate].
  destruct (arc_re _).
  - destruct (arc_end_abs st (parse_words code)) as [x1 y1].
    intro H; injection H; intros; subst; simpl. split; [reflexivity|].
    destruct (is_extruding_move st (parse_words code)); [|exact Hacc].
    destruct (linearize c); [apply fold_same_y, Hacc|].
    destruct (in_bed (bed c) x1 y1); [apply upd_same_y|]; exact Hacc.
  - destruct (move_re _).
    + intro H; injection H; intros; subst; simpl. split; [reflexivity|].
      destruct (is_extruding_move _ _ && in_bed _ _ _); [apply upd_same_y|]; exact Hacc.
    + destruct (Str.contains _ _); intro H; injection H; intros; subst; simpl; auto.
Qed.

Lemma passB_scan_same_y (M : Libm) (c : ScanCfg) (k y_ref : Q) doc :
  forall st accA accB st' accB',
  same_y accA accB ->
  passB_scan M c k y_ref (st, accB) doc = Ok (st', accB') ->
  same_y (snd (fold_left (passA_step M c) doc (st, accA))) accB'.
Proof.
  induction doc as [|line rest IH]; intros st accA accB st' accB' Hacc H.
  - simpl in H. injection H; intros; subst; exact Hacc.
  - change (bind (passB_step M c k y_ref (st, accB) line)
                 (fun sa' => passB_scan M c k y_ref sa' rest) = Ok (st', accB')) in H.
    unfold bind in H. cbn [fold_left].
    destruct (passB_step M c k y_ref (st, accB) line) as [[st1 accB1]|er] eqn:E; [|discriminate].
    destruct (passB_step_same_y M c k y_ref st accA accB line st1 accB1 Hacc E) as [Hst Hn].
    destruct (passA_step M c (st, accA) line) as [stA accA1]. simpl in Hst, Hn. subst stA.
    exact (IH st1 accA1 accB1 st' accB' Hn H).
Qed.

(** The shear leaves Y alone, so whenever [compute_translation_for_bounds]
    succeeds, the skewed box it reports has exactly the Y range of the
    unskewed box of [compute_inbed_extruding_bounds_original] (both are the
    zero box when no point is accepted). *)
Theorem recenter_box_y_matches_original (M : Libm) (c : ScanCfg) (k y_ref : Q)
    (rc : RecenterCfg) (doc : list string) (dx dy : Q) (b : Box) :
  compute_translation_for_bounds M c k y_ref rc doc = Ok (dx, dy, b) ->
  (snd (passA_scan M c doc) = None /\ b = zero_box)
  \/ (snd (passA_scan M c doc) = Some (compute_inbed_extruding_bounds_original M c doc)
      /\ b.(miny) = (compute_inbed_extruding_bounds_original M c doc).(miny)
      /\ b.(maxy) = (compute_inbed_extruding_bounds_original M c doc).(maxy)).
Proof.
  unfold compute_translation_for_bounds, bind.
  destruct (passB_scan M c k y_ref (init_state, None) doc) as [[st' accB]|er] eqn:E;
    [|discriminate].
  pose proof (passB_scan_same_y M c k y_ref doc init_state None None st' accB I E) as Hy.
  unfold compute_inbed_extruding_bounds_original, passA_scan.
  destruct (snd (fold_left (passA_step M c) doc (init_state, None))) as [a|];
    destruct accB as [bB|]; simpl in Hy; try contradiction.
  - intro H. unfold translation_for_box in H. cbn [snd] in H.
    destruct (qlt (eps rc) _ || qlt (eps rc) _); [discriminate|]. injection H as _ _ <-.
    right. destruct Hy as [H1 H2]. split; [reflexivity|]. split; symmetry; assumption.
  - intro H. injection H as _ _ <-. left. split; reflexivity.
Qed.

Lemma recenter_box_y_matches_original_witness :
  compute_translation_for_bounds libm_q scan_default (1 # 100) 0 recenter_ex
    ["G1 X10 Y10 E1"; "G1 X20 Y30 E2"]
  = Ok (0, 0, mkBox (1010 # 100) (2030 # 100) 10 30)
  /\ ((snd (passA_scan libm_q scan_default ["G1 X10 Y10 E1"; "G1 X20 Y30 E2"]) = None
       /\ mkBox (1010 # 100) (2030 # 100) 10 30 = zero_box)
      \/ (snd (passA_scan libm_q scan_default ["G1 X10 Y10 E1"; "G1 X20 Y30 E2"])
          = Some (compute_inbed_extruding_bounds_original libm_q scan_default
                    ["G1 X10 Y10 E1"; "G1 X20 Y30 E2"])
          /\ (mkBox (1010 # 100) (2030 # 100) 10 30).(miny)
             = (compute_inbed_extruding_bounds_original libm_q scan_default
                  ["G1 X10 Y10 E1"; "G1 X20 Y30 E2"]).(miny)
          /\ (mkBox (1010 # 100) (2030 # 100) 10 30).(maxy)
             = (compute_inbed_extruding_bounds_original libm_q scan_default
                  ["G1 X10 Y10 E1"; "G1 X20 Y30 E2"]).(maxy))).
Proof.
  assert (H : compute_translation_for_bounds libm_q scan_default (1 # 100) 0 recenter_ex
                ["G1 X10 Y10 E1"; "G1 X20 Y30 E2"]
              = Ok (0, 0, mkBox (1010 # 100) (2030 # 100) 10 30))
    by (vm_compute; reflexivity).
  split; [exact H|]. exact (recenter_box_y_matches_original _ _ _ _ _ _ _ _ _ H).
Defined.

(** ** The translation solver *)

Lemma choose_translation_near (lo hi eps : Q) (mode : string) :
  lo - hi <= eps ->
  lo - Qmax eps 0 <= choose_translation lo hi mode
  /\ choose_translation lo hi mode <= hi + Qmax eps 0.
Proof.
  intro H. pose proof (Q.le_max_l eps 0). pose proof (Q.le_max_r eps 0).
  unfold choose_translation.
  destruct (String.eqb mode "center"); [split; lra|].
  destruct (Qle_bool lo 0 && Qle_bool 0 hi) eqn:E.
  - apply andb_prop in E as [E1 E2]. apply Qle_bool_iff in E1, E2. split; lra.
  - destruct (qlt (Qabs lo) (Qabs hi)); split; lra.
Qed.

(** Whenever the solver accepts a box, the translated box lies inside the
    bed minus the margin, up to [eps] on each side (and exactly inside
    when [eps <= 0]). *)
Theorem translation_for_box_fits (c : ScanCfg) (rc : RecenterCfg) (b b' : Box) (dx dy : Q) :
  translation_for_box c rc b = Ok (dx, dy, b') ->
  b' = b
  /\ c.(bed).(bed_x_min) + rc.(margin) - Qmax rc.(eps) 0 <= b.(minx) + dx
  /\ b.(maxx) + dx <= c.(bed).(bed_x_max) - rc.(margin) + Qmax rc.(eps) 0
  /\ c.(bed).(bed_y_min) + rc.(margin) - Qmax rc.(eps) 0 <= b.(miny) + dy
  /\ b.(maxy) + dy <= c.(bed).(bed_y_max) - rc.(margin) + Qmax rc.(eps) 0.
Proof.
  unfold translation_for_box.
  destruct (qlt (eps rc) _ || qlt (eps rc) _) eqn:E; [discriminate|].
  apply orb_false_iff in E as [Ex Ey]. apply qlt_false in Ex, Ey.
  intro H. injection H as <- <- <-.
  destruct (choose_translation_near _ _ _ (recenter_mode rc) Ex) as [X1 X2].
  destruct (choose_translation_near _ _ _ (recenter_mode rc) Ey) as [Y1 Y2].
  split; [reflexivity|]. repeat split; lra.
Qed.

Lemma translation_for_box_fits_witness :
  translation_for_box scan_ex recenter_ex (mkBox (-1) 5 2 12) = Ok (1 # 1, -2 # 1, mkBox (-1) 5 2 12)
  /\ (mkBox (-1) 5 2 12 = mkBox (-1) 5 2 12
      /\ scan_ex.(bed).(bed_x_min) + recenter_ex.(margin) - Qmax recenter_ex.(eps) 0
         <= (mkBox (-1) 5 2 12).(minx) + (1 # 1)
      /\ (mkBox (-1) 5 2 12).(maxx) + (1 # 1)
         <= scan_ex.(bed).(bed_x_max) - recenter_ex.(margin) + Qmax recenter_ex.(eps) 0
      /\ scan_ex.(bed).(bed_y_min) + recenter_ex.(margin) - Qmax recenter_ex.(eps) 0
         <= (mkBox (-1) 5 2 12).(miny) + (-2 # 1)
      /\ (mkBox (-1) 5 2 12).(maxy) + (-2 # 1)
         <= scan_ex.(bed).(bed_y_max) - recenter_ex.(margin) + Qmax recenter_ex.(eps) 0).
Proof.
  assert (H : translation_for_box scan_ex recenter_ex (mkBox (-1) 5 2 12)
              = Ok (1 # 1, -2 # 1, mkBox (-1) 5 2 12)) by (vm_compute; reflexivity).
  split; [exact H|]. exact (translation_for_box_fits _ _ _ _ _ _ H).
Defined.

(** ** The rewrite pass *)












Lemma linearize_last (M : Libm) (st : State) (w : words) (cw : bool) (seg deg : Q) d :
  last (linearize_arc_points M st w cw seg deg) d = arc_end_abs st w.
Proof.
  unfold linearize_arc_points, range1.
  set (g := arc_geom M st w cw).
  set (steps := arc_steps (g_arc_len g) (g_da g) seg deg).
  assert (Hs : (1 <= steps)%Z) by apply arc_steps_ge_1.
  destruct (Z.to_nat steps) as [|n] eqn:En; [lia|].
  rewrite map_map, seq_S, map_app. simpl map at 2. rewrite last_last.
  unfold arc_point. change (Z.pos (Pos.of_succ_nat n)) with (Z.of_nat (S n)).
  replace (Z.of_nat (S n) =? steps)%Z with true by (symmetry; apply Z.eqb_eq; lia).
  apply arc_geom_end.
Qed.

Definition set_linearize (b : bool) (cfg : RewriteCfg) : RewriteCfg :=
  mkRewriteCfg cfg.(rw_k) cfg.(rw_y_ref) cfg.(rw_dx) cfg.(rw_dy) b cfg.(rw_arc_seg_mm)
    cfg.(rw_arc_max_deg) cfg.(rw_recenter) cfg.(xy_decimals) cfg.(other_decimals).

(** The state a run ends in, or its error. *)
Definition final_state {A} (r : res (State * A)) : res State :=
  let* p := r in Ok (fst p).

Lemma rewrite_step_linearize_state (M : Libm) (cfg : RewriteCfg) (st : State) (line : string) :
  final_state (rewrite_step M cfg st line)
  = final_state (rewrite_step M (set_linearize false cfg) st line).
Proof.
  unfold rewrite_step. destruct (split_comment line) as [code comment].
  destruct (modal_of _) as [m|]; [reflexivity|].
  cbn [rw_recenter rw_linearize set_linearize].
  destruct (rw_recenter cfg && negb (abs_xy st)); [reflexivity|].
  destruct (arc_re (Str.strip code)).
  - destruct (rw_linearize cfg); [|reflexivity].
    cbv zeta. rewrite linearize_last.
    destruct (arc_end_abs st (parse_words code)) as [x1 y1].
    unfold update_e, has. destruct (wget "E" (parse_words code)); [|reflexivity].
    change (abs_e (set_xy x1 y1 st)) with (abs_e st).
    change (e (set_xy x1 y1 st)) with (e st).
    destruct (abs_e st); reflexivity.
  - destruct (move_re (Str.strip code)); [|reflexivity].
    unfold final_state, bind.
    destruct (has "X" (parse_words code) || has "Y" (parse_words code)); [|reflexivity].
    destruct (negb (abs_xy st)); [reflexivity|].
    destruct (apply_skew_abs _ _ _ _); reflexivity.
Qed.

(** Whether arcs are linearized or passed through changes only the lines
    written, never the outcome of the rewrite pass: the same error, or the
    same tracked state (position, E, F, Z, modes) at the end. *)
Theorem rewrite_lines_linearize_state (M : Libm) (cfg : RewriteCfg) (doc : list string) :
  forall st, final_state (rewrite_lines M cfg st doc)
        = final_state (rewrite_lines M (set_linearize false cfg) st doc).
Proof.
  induction doc as [|line doc IH]; intro st; [reflexivity|]. simpl.
  pose proof (rewrite_step_linearize_state M cfg st line) as H.
  destruct (rewrite_step M cfg st line) as [[st1 o1]|e1];
  destruct (rewrite_step M (set_linearize false cfg) st line) as [[st2 o2]|e2];
  unfold final_state, bind in H; simpl in H; try discriminate H.
  - injection H as <-. simpl. specialize (IH st1). unfold final_state, bind in IH |- *.
    destruct (rewrite_lines M cfg st1 doc) as [[s3 o3]|e3];
    destruct (rewrite_lines M (set_linearize false cfg) st1 doc) as [[s4 o4]|e4];
    exact IH.
  - exact H.
Qed.

(** With linearization off, each input line gives exactly one output line:
    the line itself, or a move to be re-rendered whose code and comment are
    the two parts [split_comment] cut the line into. *)
Theorem rewrite_lines_one_to_one (M : Libm) (cfg : RewriteCfg) (doc : list string) :
  cfg.(rw_linearize) = false ->
  forall st st' outs, rewrite_lines M cfg st doc = Ok (st', outs) ->
  Forall2 (fun line o => o = OText line \/
             exists code subs comment, o = OMove code subs comment
                                       /\ split_comment line = (code, comment))
          doc outs.
Proof.
  intro Hl. induction doc as [|line doc IH]; intros st st' outs H.
  - injection H as _ <-. constructor.
  - simpl in H.
    destruct (rewrite_step M cfg st line) as [[st1 o1]|e1] eqn:E1; [|discriminate].
    simpl in H. destruct (rewrite_lines M cfg st1 doc) as [[st2 o2]|e2] eqn:E2; [|discriminate].
    simpl in H. injection H as _ <-.
    assert (Ho : exists o, o1 = [o] /\ (o = OText line \/
               exists code subs comment, o = OMove code subs comment
                                         /\ split_comment line = (code, comment))).
    { revert E1. unfold rewrite_step. destruct (split_comment line) as [code comment] eqn:Es.
      destruct (modal_of _) as [m|].
      - intro E. injection E as _ <-. eexists; split; [reflexivity|left; reflexivity].
      - rewrite Hl. destruct (rw_recenter cfg && negb (abs_xy st)); [discriminate|].
        destruct (arc_re (Str.strip code)).
        + destruct (arc_end_abs st (parse_words code)).
          intro E. injection E as _ <-. eexists; split; [reflexivity|left; reflexivity].
        + destruct (move_re (Str.strip code));
            [|intro E; injection E as _ <-; eexists; split; [reflexivity|left; reflexivity]].
          unfold bind.
          destruct (has "X" (parse_words code) || has "Y" (parse_words code)).
          * destruct (negb (abs_xy st)); [discriminate|].
            destruct (apply_skew_abs _ _ _ _).
            intro E. injection E as _ <-. eexists; split; [reflexivity|].
            right. do 3 eexists. split; reflexivity.
          * intro E. injection E as _ <-. eexists; split; [reflexivity|left; reflexivity]. }
    destruct Ho as [o [-> Ho]]. simpl. constructor; [exact Ho|]. exact (IH _ _ _ E2).
Qed.

Lemma rewrite_lines_one_to_one_witness :
  exists st' outs,
    rewrite_lines libm_q (rw_cfg_ex false) init_state ["G90"; "G1 X1 Y2 ; go"; "M104 S200"]
    = Ok (st', outs) /\
    Forall2 (fun line o => o = OText line \/
               exists code subs comment, o = OMove code subs comment
                                         /\ split_comment line = (code, comment))
            ["G90"; "G1 X1 Y2 ; go"; "M104 S200"] outs.
Proof.
  do 2 eexists. split; [vm_compute; reflexivity|].
  eapply (rewrite_lines_one_to_one libm_q (rw_cfg_ex false) _ eq_refl init_state).
  vm_compute. reflexivity.
Defined.




(** ** The analysis pass *)

Lemma qlt_shift (a b d : Q) : qlt (a + d) (b + d) = qlt a b.
Proof.
  destruct (qlt a b) eqn:E.
  - apply qlt_true in E. apply qlt_true. lra.
  - apply qlt_false in E. apply qlt_false. lra.
Qed.

Lemma pymin_shift (a b d : Q) : pymin (a + d) (b + d) = pymin a b + d.
Proof. unfold pymin. rewrite qlt_shift. destruct (qlt b a); reflexivity. Qed.

Lemma pymax_shift (a b d : Q) : pymax (a + d) (b + d) = pymax a b + d.
Proof. unfold pymax. rewrite qlt_shift. destruct (qlt a b); reflexivity. Qed.

(** The pre- and post-skew boxes are both empty, or the second one's Y
    bounds are the first one's moved by [dy]. *)
Definition y_shifted (dy : Q) (pre post : option Box) : Prop :=
  match pre, post with
  | None, None => True
  | Some b0, Some b1 => b1.(miny) = b0.(miny) + dy /\ b1.(maxy) = b0.(maxy) + dy
  | _, _ => False
  end.

Definition analysis_inv (dy : Q) (a : Analysis) : Prop :=
  y_shifted dy a.(pre) a.(post) /\ 0 <= a.(max_abs_dx).

Lemma analyze_point_inv (ac : AnalyzeCfg) (a : Analysis) (p : Q * Q) :
  analysis_inv ac.(an_dy) a -> analysis_inv ac.(an_dy) (analyze_point ac a p).
Proof.
  destruct p as [x1 y1]. unfold analyze_point, apply_skew_abs, analysis_inv. cbn.
  intros [Hs Hm]. split.
  - destruct (pre a) as [b0|], (post a) as [b1|]; cbn in Hs |- *; try contradiction.
    + destruct Hs as [E1 E2]. rewrite E1, E2, pymin_shift, pymax_shift. split; reflexivity.
    + split; reflexivity.
  - eapply Qle_trans; [exact Hm|apply pymax_ge_l].
Qed.

Lemma analyze_points_inv (ac : AnalyzeCfg) (pts : list (Q * Q)) :
  forall a, analysis_inv ac.(an_dy) a ->
  analysis_inv ac.(an_dy) (fold_left (analyze_point ac) pts a).
Proof.
  induction pts as [|p pts IH]; intros a H; [exact H|].
  cbn [fold_left]. apply IH, analyze_point_inv, H.
Qed.

Lemma analyze_step_inv (M : Libm) (ac : AnalyzeCfg) (a : Analysis) (line : string) :
  analysis_inv ac.(an_dy) a -> analysis_inv ac.(an_dy) (analyze_step M ac a line).
Proof.
  intro H. unfold analyze_step. destruct (split_comment line) as [code cm].
  destruct (Str.is_empty _); [exact H|].
  destruct (modal_of _); [exact H|].
  destruct (negb (abs_xy (an_st a))); [exact H|].
  destruct (move_re _).
  - destruct (has "X" _ || has "Y" _); [apply analyze_point_inv, H|exact H].
  - destruct (arc_re _); [|exact H]. destruct (an_linearize ac).
    + destruct (last _ _). apply analyze_points_inv, H.
    + destruct (arc_end_abs _ _). apply analyze_point_inv, H.
Qed.

(** The analysis measures the skew without moving anything in Y: after any
    document the post-skew box is empty exactly when the pre-skew box is,
    and its Y bounds are the pre-skew Y bounds shifted by [dy]; the largest
    X change it reports is never negative. *)
Theorem analyze_scan_y_shift (M : Libm) (ac : AnalyzeCfg) (doc : list string) :
  let a := analyze_scan M ac doc in
  y_shifted ac.(an_dy) a.(pre) a.(post) /\ 0 <= a.(max_abs_dx).
Proof.
  cbv zeta. unfold analyze_scan.
  assert (H0 : analysis_inv ac.(an_dy) (mkAnalysis init_state None None 0))
    by (split; [exact I|apply Qle_refl]).
  revert H0. generalize (mkAnalysis init_state None None 0).
  induction doc as [|line doc IH]; intros a H; [exact H|].
  cbn [fold_left]. apply IH, analyze_step_inv, H.
Qed.

(** ** [replace_or_append] *)



Lemma chars_of_list (l : list ascii) : chars (string_of_list_ascii l) = l.
Proof. apply list_ascii_of_string_of_list_ascii. Qed.















(** ** [_fmt_fixed] on values that round to zero *)

Lemma round_half_even_neg_zero (q : Q) :
  -(1 # 2) <= q -> q < 0 -> round_half_even q = 0%Z.
Proof.
  intros H1 H2. unfold round_half_even.
  assert (Hf : Qfloor q = (-1)%Z).
  { pose proof (Qfloor_le q) as A. pose proof (Qlt_floor q) as B.
    assert (C : (Qfloor q < 0)%Z).
    { destruct (Z.lt_ge_cases (Qfloor q) 0) as [C|C]; [exact C|exfalso].
      rewrite Zle_Qle in C. change (inject_Z 0) with 0 in C. lra. }
    assert (D : (-2 < Qfloor q)%Z).
    { rewrite Zlt_Qlt. rewrite inject_Z_plus in B. change (inject_Z 1) with 1 in B.
      change (inject_Z (-2)) with (-2). lra. }
    lia. }
  rewrite Hf. change (inject_Z (-1)) with (-1).
  destruct (qlt (q - -1) (1 # 2)) eqn:E1; [apply qlt_true in E1; lra|].
  destruct (qlt (1 # 2) (q - -1)); reflexivity.
Qed.

Lemma zeros_snoc (p : nat) : zeros p ++ "0" = zeros (S p).
Proof. induction p as [|p IH]; simpl; [reflexivity|rewrite IH; reflexivity]. Qed.

Lemma zeros_length (p : nat) : String.length (zeros p) = p.
Proof. induction p as [|p IH]; simpl; [reflexivity|rewrite IH; reflexivity]. Qed.

Lemma substring_zeros (p : nat) : substring 0 p (zeros p) = zeros p.
Proof. induction p as [|p IH]; simpl; [reflexivity|rewrite IH; reflexivity]. Qed.

Lemma zeros_chars (p : nat) : zeros p = string_of_list_ascii (repeat "0"%char p).
Proof. induction p as [|p IH]; simpl; [reflexivity|rewrite IH; reflexivity]. Qed.

Lemma rstrip_char_repeat (ch : ascii) (s : string) (p : nat) :
  Str.rstrip_char ch (s ++ string_of_list_ascii (repeat ch p)) = Str.rstrip_char ch s.
Proof.
  unfold Str.rstrip_char. rewrite chars_app, chars_of_list, rev_app_distr, rev_repeat.
  induction p as [|p IH]; [reflexivity|].
  cbn [repeat app]. rewrite <- IH. cbn beta iota. rewrite Ascii.eqb_refl. reflexivity.
Qed.

Lemma py_fixed_neg_zero (v : Q) (places : nat) :
  -(1 # 2) <= v * inject_Z (10 ^ Z.of_nat places) ->
  v * inject_Z (10 ^ Z.of_nat places) < 0 ->
  py_fixed v places = "-" ++ (if Nat.eqb places 0 then "0" else "0." ++ zeros places).
Proof.
  intros H1 H2. unfold py_fixed.
  rewrite (round_half_even_neg_zero _ H1 H2).
  assert (Hv : qlt v 0 = true).
  { apply qlt_true. apply Qnot_le_lt. intro Hv.
    assert (Hp : 0 <= inject_Z (10 ^ Z.of_nat places)).
    { change 0 with (inject_Z 0). rewrite <- Zle_Qle. apply Z.pow_nonneg. lia. }
    pose proof (Qmult_le_0_compat _ _ Hv Hp). lra. }
  rewrite Hv. change (z_to_dec (Z.abs 0)) with "0".
  replace (S places - String.length "0")%nat with places by (simpl; lia).
  rewrite zeros_snoc. destruct places as [|p]; [reflexivity|].
  cbn [Nat.eqb]. rewrite zeros_length.
  replace (S (S p) - S p)%nat with 1%nat by lia.
  cbn [zeros substring]. rewrite substring_zeros. reflexivity.
Qed.

(** A negative value that rounds to zero at the requested precision keeps
    its minus sign: [_fmt_fixed] writes "-0", and with zero places only
    "-" (the zero is stripped with the trailing zeros). *)
Theorem fmt_fixed_neg_zero (v : Q) (places : nat) :
  -(1 # 2) <= v * inject_Z (10 ^ Z.of_nat places) ->
  v * inject_Z (10 ^ Z.of_nat places) < 0 ->
  fmt_fixed v places = if Nat.eqb places 0 then "-" else "-0".
Proof.
  intros H1 H2. unfold fmt_fixed. rewrite (py_fixed_neg_zero v places H1 H2).
  destruct places as [|p]; [reflexivity|]. cbn [Nat.eqb].
  change ("-" ++ "0." ++ zeros (S p)) with ("-0." ++ zeros (S p)).
  rewrite zeros_chars, rstrip_char_repeat. reflexivity.
Qed.

Lemma fmt_fixed_neg_zero_witness :
  fmt_fixed (-(1 # 5000)) 3 = "-0" /\ fmt_fixed (-(3 # 10)) 0 = "-"
  /\ fmt_fixed (-(1 # 5000)) 3 = (if Nat.eqb 3 0 then "-" else "-0").
Proof.
  split; [vm_compute; reflexivity|]. split; [vm_compute; reflexivity|].
  apply fmt_fixed_neg_zero; vm_compute; first [reflexivity | intro Hc; discriminate Hc].
Defined.
